(** * fold-concat.c: folds over arrays, linked lists and counted arrays,
      and the string concatenation built from them.

    The development embeds [src/code/abstraction/fold-concat.c] over a small
    block memory and proves the properties of its specification.

    Modelling decisions.

    - Values.  A value is a word: undefined, an integer, or a pointer (a
      block and an offset).  An [int] is 32 bits wide and its arithmetic
      wraps modulo [2^32]; pointers and [size_t] are 64 bits wide (LP64).
    - Conversions.  The source moves values between [int] and the pointer
      types without regard for their widths: [fold_array] returns its
      [void*] accumulator through an [int] result, which
      [fold_counted_array] converts back; [fold_string_list] calls its
      reducer through [string_binop], whose result is an [int], and assigns
      that to its [char*] accumulator; [accumulate_length], which takes and
      returns an [int], is called by the folds with their pointer-typed
      accumulator.  The model has these conversions where the source has
      them.  An integer that fits an [int] goes through them unchanged: a
      pointer made from an [int] is its sign extension, the same integer,
      and the [int] that [accumulate_length] returns where a fold expects a
      pointer is taken the same way.  A pointer does not: its upper half
      is cut off, what is left points nowhere, and the model has the
      undefined value for it ([as_int]).
    - Sizes.  The request [concat] makes of [malloc] is a pointer-typed
      word plus one, read as a [size_t]: an [int] total that has wrapped
      around to a negative number becomes a request near [2^64].
    - Memory.  A memory is a list of blocks, a block is a list of cells, a
      cell holds one value.  A pointer is a block number and a cell offset;
      a struct is a block whose cells are its fields in declaration order.
      [malloc] returns [NULL] or a pointer to a new block of uninitialised
      cells.
    - Effects.  Every function is a computation over the memory that ends
      with a value and a memory, faults (an access outside a block, a use of
      an undefined value: undefined behaviour in C) or runs out of fuel (the
      [while] loops over linked lists take a fuel argument, since a cyclic
      list makes them run forever). *)

From Stdlib Require Import ZArith Lia.
From stdpp Require Import base option list.

Local Open Scope Z_scope.

(** ** Values and machine arithmetic *)

(** Blocks are numbered from 0. *)
Abbreviation block := nat (only parsing).

Inductive val : Type :=
  | Vundef
  | Vint (n : Z)
  | Vptr (b : block) (ofs : Z).
Arguments Vptr b%_nat ofs%_Z.

(** [NULL], and the literal [0] where a pointer is expected. *)
Definition NULL : val := Vint 0.

(** A signed 32-bit [int]: the representative in [-2^31, 2^31). *)
Definition to_int (z : Z) : Z := (z + 2 ^ 31) mod 2 ^ 32 - 2 ^ 31.

(** A signed 64-bit integer, the width of a pointer: the representative
    in [-2^63, 2^63). *)
Definition to_long (z : Z) : Z := (z + 2 ^ 63) mod 2 ^ 64 - 2 ^ 63.

(** An unsigned 64-bit [size_t]: the representative in [0, 2^64). *)
Definition to_size_t (z : Z) : Z := z mod 2 ^ 64.

(** [(int) v], and a pointer-typed word read where an [int] is expected:
    an integer is cut to 32 bits; a pointer cut to 32 bits is no pointer
    any more. *)
Definition as_int (v : val) : val :=
  match v with
  | Vint n => Vint (to_int n)
  | Vptr _ _ => Vundef
  | Vundef => Vundef
  end.

(** [(void* ) i] and [(char* ) i] on an [int]: the sign extension, which is
    the same integer. *)
Definition as_ptr (i : val) : val :=
  match i with
  | Vint n => Vint n
  | _ => Vundef
  end.

(** [x + y] where [x] or [y] is an [int]: [int] addition wraps; a pointer
    plus an [int] moves the offset (in cells). *)
Definition add (x y : val) : val :=
  match x, y with
  | Vint a, Vint b => Vint (to_int (a + b))
  | Vptr b ofs, Vint i => Vptr b (ofs + i)
  | Vint i, Vptr b ofs => Vptr b (ofs + i)
  | _, _ => Vundef
  end.

(** [p + i] on a [void*] or [char*] [p]: the offset moves; where [p] holds
    an integer the addition is that of 64-bit words. *)
Definition add_ptr (p : val) (i : Z) : val :=
  match p with
  | Vint a => Vint (to_long (a + i))
  | Vptr b ofs => Vptr b (ofs + i)
  | Vundef => Vundef
  end.

(** ** Memory and computations *)

Record mem : Type := Mem {
  blocks : list (list val);   (* block [b] is [blocks !! b] *)
  avail : Z                   (* the cells [malloc] can still hand out *)
}.

Inductive result (A : Type) : Type :=
  | Done (x : A) (m : mem)
  | Fault
  | OutOfFuel.
Arguments Done {A} x m.
Arguments Fault {A}.
Arguments OutOfFuel {A}.

Definition M (A : Type) : Type := mem -> result A.

Definition ret {A} (x : A) : M A := fun m => Done x m.
Definition fault {A} : M A := fun _ => Fault.
Definition out_of_fuel {A} : M A := fun _ => OutOfFuel.
Definition bind {A B} (c : M A) (k : A -> M B) : M B :=
  fun m =>
    match c m with
    | Done x m' => k x m'
    | Fault => Fault
    | OutOfFuel => OutOfFuel
    end.

Notation "x <- c ;; k" := (bind c (fun x => k))
  (at level 100, c at next level, right associativity).
Notation "c ;;; k" := (bind c (fun _ => k))
  (at level 100, right associativity).

(** A heap is what a memory holds, or a part of it: some blocks by their
    numbers.  A memory is read through its heap. *)
Definition heap : Type := block -> option (list val).

Definition heap_of (m : mem) : heap := fun b => blocks m !! b.
Coercion heap_of : mem >-> heap.

(** The cells of the object [p] points into, from [p] on. *)
Definition cells_at (h : heap) (p : val) : option (list val) :=
  match p with
  | Vptr b ofs => if 0 <=? ofs then drop (Z.to_nat ofs) <$> h b else None
  | _ => None
  end.

(** The cell [p] points to, if [p] points into a block. *)
Definition read (h : heap) (p : val) : option val := cells_at h p ≫= head.

(** [*p] *)
Definition load (p : val) : M val :=
  fun m =>
    match read m p with
    | Some v => Done v m
    | None => Fault
    end.

(** The value of a controlling expression: [while (v)], [if (v)]. *)
Definition truth (v : val) : M bool :=
  match v with
  | Vint n => ret (negb (n =? 0))
  | Vptr _ _ => ret true
  | Vundef => fault
  end.

(** An [int] read out of a word; the [size_t] an integer converts to (an
    [int] by sign extension, a pointer-typed word as it is). *)
Definition int_of (v : val) : M Z :=
  match v with
  | Vint n => ret n
  | _ => fault
  end.

Definition size_of (v : val) : M Z :=
  match v with
  | Vint n => ret (to_size_t n)
  | _ => fault
  end.

(** ** The C library: [strlen], [stpcpy], [malloc] *)

(** The characters of the string that starts at the head of [cells], up to
    its terminator; [None] when the cells end, or hold something that is not
    a character, before a terminator is met. *)
Fixpoint cstring (cells : list val) : option (list Z) :=
  match cells with
  | Vint c :: rest => if c =? 0 then Some [] else cons c <$> cstring rest
  | _ => None
  end.

Definition string_at (h : heap) (p : val) : option (list Z) :=
  cells_at h p ≫= cstring.

Definition strlen (s : val) : M Z :=
  fun m =>
    match string_at m s with
    | Some cs => Done (Z.of_nat (length cs)) m
    | None => Fault
    end.

(** The cells of a string with its terminator. *)
Definition string_cells (cs : list Z) : list val := (Vint <$> cs) ++ [Vint 0].

(** [blk] with [new] written over its cells from offset [ofs] on. *)
Definition write (blk : list val) (ofs : nat) (new : list val) : list val :=
  take ofs blk ++ new ++ drop (ofs + length new)%nat blk.

(** Do the [n] cells at [dst] and the [n] cells at [src] overlap? *)
Definition overlap (dst src : val) (n : Z) : bool :=
  match dst, src with
  | Vptr b1 o1, Vptr b2 o2 =>
      bool_decide (b1 = b2) && (o1 <? o2 + n) && (o2 <? o1 + n)
  | _, _ => false
  end.

(** [stpcpy(dst, src)]: copies the string at [src], terminator included, to
    [dst] and returns a pointer to the terminator written. *)
Definition stpcpy (dst src : val) : M val :=
  fun m =>
    match string_at m src, dst with
    | Some cs, Vptr b ofs =>
        let n := Z.of_nat (length cs) in
        match blocks m !! b with
        | Some blk =>
            if (0 <=? ofs) && (ofs + n + 1 <=? Z.of_nat (length blk))
               && negb (overlap dst src (n + 1))
            then Done (Vptr b (ofs + n))
                   (Mem (<[b := write blk (Z.to_nat ofs) (string_cells cs)]>
                           (blocks m))
                        (avail m))
            else Fault
        | None => Fault
        end
    | _, _ => Fault
    end.

(** [malloc(size)]: [NULL] when the allocator cannot serve the request, else
    a pointer to a new block of [size] uninitialised cells. *)
Definition malloc (size : Z) : M val :=
  fun m =>
    if size <=? avail m
    then Done (Vptr (length (blocks m)) 0)
           (Mem (blocks m ++ [replicate (Z.to_nat size) Vundef])
                (avail m - size))
    else Done NULL m.

(** ** The program *)

(** [for (int i = 0; i < length; i++) value = body(i, value);]: the body runs
    for [i = 0, ..., length - 1], [Z.to_nat length] times in all (not once
    when [length <= 0]); [i] stays below [length], so [i++] never wraps. *)
Fixpoint for_loop {A} (n : nat) (i : Z) (body : Z -> A -> M A) (value : A)
  : M A :=
  match n with
  | O => ret value
  | S n' => value' <- body i value;; for_loop n' (i + 1) body value'
  end.

Definition for_upto {A} (length : Z) (body : Z -> A -> M A) (value : A)
  : M A :=
  for_loop (Z.to_nat length) 0 body value.

(** [int_binop], [string_binop] and [binop]: reducers take two words and
    return one.  What the three types say of the width of the result is
    modelled where the reducer is called. *)
Definition binop : Type := val -> val -> M val.

Definition sum_array_direct (xs : val) (length : Z) : M val :=
  for_upto length
    (fun i sum => x <- load (add xs (Vint i));; ret (add sum x))
    (Vint 0).

Definition fold_int_array (array : val) (length : Z) (init : val) (op : binop)
  : M val :=
  for_upto length
    (fun i value => x <- load (add array (Vint i));; op value x)
    init.

Definition sum : binop := fun x y => ret (add x y).

Definition sum_array (array : val) (length : Z) : M val :=
  fold_int_array array length (Vint 0) sum.

(** [l->value] and [l->next], for [string_list] and [list] alike. *)
Definition value_of (l : val) : M val := load l.
Definition next_of (l : val) : M val := load (add l (Vint 1)).

Fixpoint size_list_loop (fuel : nat) (list : val) (size : val) : M val :=
  match fuel with
  | O => out_of_fuel
  | S fuel' =>
      c <- truth list;;
      if c : bool then
        s <- value_of list;;
        n <- strlen s;;
        nxt <- next_of list;;
        size_list_loop fuel' nxt (add size (Vint n))
      else ret size
  end.

Definition size_list (fuel : nat) (list : val) : M val :=
  size_list_loop fuel list (Vint 0).

Fixpoint concat_list_loop (fuel : nat) (list : val) (outp : val) : M unit :=
  match fuel with
  | O => out_of_fuel
  | S fuel' =>
      c <- truth list;;
      if c : bool then
        s <- value_of list;;
        outp' <- stpcpy outp s;;
        nxt <- next_of list;;
        concat_list_loop fuel' nxt outp'
      else ret tt
  end.

Definition concat_list (fuel : nat) (list : val) : M val :=
  n <- size_list fuel list;;
  size <- size_of (add n (Vint 1));;
  outbuf <- malloc size;;
  c <- truth outbuf;;
  (if c : bool then concat_list_loop fuel list outbuf else ret tt);;;
  ret outbuf.

(** [op] is called through [string_binop]: its result is read as an [int],
    and the assignment to [value] converts that to a [char*]. *)
Fixpoint fold_string_list (fuel : nat) (list : val) (init : val) (op : binop)
  : M val :=
  match fuel with
  | O => out_of_fuel
  | S fuel' =>
      c <- truth list;;
      if c : bool then
        s <- value_of list;;
        r <- op init s;;
        nxt <- next_of list;;
        fold_string_list fuel' nxt (as_ptr (as_int r)) op
      else ret init
  end.

(** [sum] is an [int] parameter: of the word it is handed, the [int]. *)
Definition accumulate_length : binop :=
  fun sum string => n <- strlen string;; ret (add (as_int sum) (Vint n)).

Definition concat_string_list (fuel : nat) (list : val) : M val :=
  n <- fold_string_list fuel list (Vint 0) accumulate_length;;
  size <- size_of (add_ptr n 1);;
  outbuf <- malloc size;;
  c <- truth outbuf;;
  (if c : bool then fold_string_list fuel list outbuf stpcpy;;; ret tt
   else ret tt);;;
  ret outbuf.


(** [fold_array] returns its [void*] accumulator through its [int]
    result. *)
Definition fold_array (array : val) (length : Z) (init : val) (op : binop)
  : M val :=
  value <- for_upto length
             (fun i value => x <- load (add array (Vint i));; op value x)
             init;;
  ret (as_int value).

Fixpoint fold_list (fuel : nat) (list : val) (init : val) (op : binop)
  : M val :=
  match fuel with
  | O => out_of_fuel
  | S fuel' =>
      c <- truth list;;
      if c : bool then
        e <- value_of list;;
        value <- op init e;;
        nxt <- next_of list;;
        fold_list fuel' nxt value op
      else ret init
  end.

Definition fold_fn : Type := val -> val -> binop -> M val.

Definition concat (fold : fold_fn) (collection : val) : M val :=
  n <- fold collection (Vint 0) accumulate_length;;
  size <- size_of (add_ptr n 1);;
  outbuf <- malloc size;;
  fold collection outbuf stpcpy;;;
  ret outbuf.

(** [counted_array]: field [value] at offset 0, field [length] at offset 1.
    The [int] that [fold_array] returns is converted to the [void*]
    result. *)
Definition fold_counted_array : fold_fn :=
  fun array init op =>
    a <- load array;;
    l <- load (add array (Vint 1));;
    length <- int_of l;;
    r <- fold_array a length init op;;
    ret (as_ptr r).

(** [main]'s objects: the string literals of the initialisers and the
    locals [l2], [l1], [str_array] and [array] in blocks 0 to 7, the two
    literals of the assertions in blocks 8 and 9. *)
Definition main_mem (room : Z) : mem :=
  Mem [ string_cells [98; 97; 114];                       (* "bar" *)
        string_cells [102; 111; 111];                     (* "foo" *)
        [Vptr 0 0; NULL];                                 (* l2 *)
        [Vptr 1 0; Vptr 2 0];                             (* l1 *)
        string_cells [104; 101; 108; 108; 111];           (* "hello" *)
        string_cells [119; 111; 114; 108; 100];           (* "world" *)
        [Vptr 4 0; Vptr 5 0];                             (* str_array *)
        [Vptr 6 0; Vint 2];                               (* array *)
        string_cells [102; 111; 111; 98; 97; 114];        (* "foobar" *)
        string_cells [104; 101; 108; 108; 111;
                      119; 111; 114; 108; 100] ]          (* "helloworld" *)
      room.

(** [strcmp(a, b) == 0] *)
Definition strcmp_eq0 (a b : val) : M bool :=
  fun m =>
    match string_at m a, string_at m b with
    | Some x, Some y => Done (bool_decide (x = y)) m
    | _, _ => Fault
    end.

(** [assert(c)]: an assertion that fails aborts the program. *)
Definition assert (c : bool) : M unit := if c then ret tt else fault.

(** The two assertions of [main], run on [main_mem]. *)
Definition main (fuel : nat) : M unit :=
  r1 <- concat (fold_list fuel) (Vptr 3 0);;
  c1 <- strcmp_eq0 r1 (Vptr 8 0);;
  assert c1;;;
  r2 <- concat fold_counted_array (Vptr 7 0);;
  c2 <- strcmp_eq0 r2 (Vptr 9 0);;
  assert c2.

(** ** Specification vocabulary *)

(** The memory [m] holds every block of the heap [h], as it is in [h]. *)
Definition extends (h : heap) (m : mem) : Prop :=
  forall b blk, h b = Some blk -> blocks m !! b = Some blk.

(** [p] is a linked list in [h] whose nodes hold [elems], in order. *)
Inductive is_list (h : heap) : val -> list val -> Prop :=
  | is_list_nil : is_list h NULL []
  | is_list_cons b ofs e nxt elems :
      read h (Vptr b ofs) = Some e ->
      read h (Vptr b (ofs + 1)) = Some nxt ->
      is_list h nxt elems ->
      is_list h (Vptr b ofs) (e :: elems).

(** [p] points to an array in [h] whose first cells hold [elems]. *)
Definition is_array (h : heap) (p : val) (elems : list val) : Prop :=
  forall i x, elems !! i = Some x ->
    read h (add p (Vint (Z.of_nat i))) = Some x.

(** [p] points to a [counted_array] in [h] over the elements [elems]. *)
Definition is_counted_array (h : heap) (p : val) (elems : list val) : Prop :=
  exists a,
    read h p = Some a /\
    read h (add p (Vint 1)) = Some (Vint (Z.of_nat (length elems))) /\
    Z.of_nat (length elems) < 2 ^ 31 /\
    is_array h a elems.

(** The elements [elems] point to the strings [strs] in [h]. *)
Definition strings_at (h : heap) (elems : list val) (strs : list (list Z))
  : Prop :=
  Forall2 (fun e s => string_at h e = Some s) elems strs.

(** The fold of the specification: the reducer is applied to the
    accumulator and each element in turn, from the left, once per element. *)
Fixpoint foldM (op : binop) (elems : list val) (acc : val) : M val :=
  match elems with
  | [] => ret acc
  | e :: rest => acc' <- op acc e;; foldM op rest acc'
  end.

(** The reducer [op] as a fold calls it where the type of the reducer
    says that its result is an [int]. *)
Definition int_result (op : binop) : binop :=
  fun acc e => r <- op acc e;; ret (as_ptr (as_int r)).

(** A reducer that only reads the memory and never faults: it computes
    [f m acc e] and leaves [m] as it is. *)
Definition pure_op (op : binop) (f : mem -> val -> val -> val) : Prop :=
  forall acc e m, op acc e m = Done (f m acc e) m.

(** [*p = v] *)
Definition store (p v : val) : M unit :=
  fun m =>
    match p with
    | Vptr b ofs =>
        match blocks m !! b with
        | Some blk =>
            if (0 <=? ofs) && (ofs <? Z.of_nat (length blk))
            then Done tt
                   (Mem (<[b := <[Z.to_nat ofs := v]> blk]> (blocks m))
                        (avail m))
            else Fault
        | None => Fault
        end
    | _ => Fault
    end.

(** A reducer that counts its own calls: it adds one to the [int] that
    [calls] points to, then returns [g acc e]. *)
Definition counting (calls : val) (g : val -> val -> val) : binop :=
  fun acc e =>
    n <- load calls;;
    store calls (add n (Vint 1));;;
    ret (g acc e).

(** The memory [m] with the one-cell block [c] holding the count [k]. *)
Definition counted (m : mem) (c : block) (k : Z) : mem :=
  Mem (<[c := [Vint k]]> (blocks m)) (avail m).

(** A reducer that is pure on the elements [elems] in the memory [m]:
    whatever the accumulator, it leaves [m] as it is and returns [f acc e],
    or faults where [f acc e] is [None]. *)
Definition outcome (o : option val) (m : mem) : result val :=
  match o with
  | Some r => Done r m
  | None => Fault
  end.

Definition pure_on (m : mem) (elems : list val) (op : binop)
    (f : val -> val -> option val) : Prop :=
  forall acc e, e ∈ elems -> op acc e m = outcome (f acc e) m.

(** The left fold of a partial function. *)
Fixpoint fold_opt (f : val -> val -> option val) (elems : list val)
    (acc : val) : option val :=
  match elems with
  | [] => Some acc
  | e :: rest => f acc e ≫= fold_opt f rest
  end.

(** [fold], applied to [coll], refines [foldM] over [elems] for every
    reducer that keeps the blocks of [h], up to a conversion [conv] of the
    result that keeps every [int]. *)
Definition folds (fold : fold_fn) (h : heap) (coll : val) (elems : list val)
  : Prop :=
  exists conv : val -> val,
    (forall n, conv (Vint (to_int n)) = Vint (to_int n)) /\
    forall (op : binop) (Inv : val -> mem -> Prop),
      (forall acc m, Inv acc m -> extends h m) ->
      (forall acc e m r m', Inv acc m -> op acc e m = Done r m' -> Inv r m') ->
      forall init m, Inv init m ->
        fold coll init op m = (r <- foldM op elems init;; ret (conv r)) m.

(** The request [concat] makes of [malloc] when the lengths of the strings
    add up to [total]: the [int] the total has become, plus one, as a
    [size_t]. *)
Definition request (total : Z) : Z := to_size_t (to_int total + 1).

(** The characters of the strings [strs], joined in order with no
    separator, and their number. *)
Definition join (strs : list (list Z)) : list Z := List.concat strs.

Definition total_length (strs : list (list Z)) : Z :=
  Z.of_nat (length (join strs)).

(** The block [blk] after the strings [strs] were copied to it one after the
    other from offset [ofs] on, each over the terminator of the one before:
    nothing is written when there is no string to copy. *)
Definition copied (blk : list val) (ofs : nat) (strs : list (list Z))
  : list val :=
  match strs with
  | [] => blk
  | _ :: _ => write blk ofs (string_cells (join strs))
  end.

(** The memory [concat] leaves when it has joined [strs]: one more block,
    which holds the joined string. *)
Definition concat_mem (m : mem) (strs : list (list Z)) : mem :=
  Mem (blocks m ++ [string_cells (join strs)])
      (avail m - (total_length strs + 1)).

(** [concat fold coll], run in [m], returns a pointer to the strings [strs]
    joined: a string of that content, whose length is the sum of their
    lengths, in a memory that keeps the blocks of [m]. *)
Definition concat_joins (fold : fold_fn) (coll : val) (m : mem)
    (strs : list (list Z)) : Prop :=
  exists r m',
    concat fold coll m = Done r m' /\
    string_at m' r = Some (join strs) /\
    strlen r m' = Done (Z.of_nat (sum_list (length <$> strs))) m' /\
    extends m m'.

(** A counted array of [n] elements that all point to one string of [n]
    characters ['a']: the string in block 0, the array in block 1, the
    [counted_array] in block 2. *)
Definition repeated_mem (n : nat) (room : Z) : mem :=
  Mem [ string_cells (replicate n 97);
        replicate n (Vptr 0 0);
        [Vptr 1 0; Vint (Z.of_nat n)] ]
      room.

(** The memory of [main] with one more block, 11 cells that hold nothing
    yet: a buffer for a copy pass, as [malloc] hands it out. *)
Definition buffer_mem : mem :=
  Mem (blocks (main_mem 0) ++ [replicate 11 Vundef]) 0.

(** One sequence in two shapes: the strings "ab" and "c" in blocks 0 and 1,
    a list of the two in blocks 3 and 2, an array of the two in block 4 and
    the [counted_array] over it in block 5. *)
Definition shapes_mem (room : Z) : mem :=
  Mem [ string_cells [97; 98];
        string_cells [99];
        [Vptr 1 0; NULL];
        [Vptr 0 0; Vptr 2 0];
        [Vptr 0 0; Vptr 1 0];
        [Vptr 4 0; Vint 2] ]
      room.

(** The array [1, 2, 3, 4] of the third scenario, alone in memory. *)
Definition int_array_mem : mem := Mem [[Vint 1; Vint 2; Vint 3; Vint 4]] 0.

(** The sum of a list of integers. *)
Definition sumZ (xs : list Z) : Z := foldr Z.add 0 xs.

(** A set [S] of list nodes of [h] that is closed under [next]: every
    pointer of [S] is a node whose fields are there, and whose [next] is in
    [S] again.  A list that starts in such a set never reaches [NULL]: it
    runs into a cycle. *)
Definition endless (h : heap) (S : val -> Prop) : Prop :=
  forall p, S p ->
    exists b ofs e nxt,
      p = Vptr b ofs /\
      read h (Vptr b ofs) = Some e /\
      read h (Vptr b (ofs + 1)) = Some nxt /\
      S nxt.

(** A list of two nodes, in blocks 1 and 2, whose second node points back
    to the first; both hold the string "a" of block 0. *)
Definition cyclic_mem : mem :=
  Mem [ string_cells [97]; [Vptr 0 0; Vptr 2 0]; [Vptr 0 0; Vptr 1 0] ] 8.

(** What the copy pass, a fold of [stpcpy] from offset [k] of the block
    [b], leaves when it ends in [res], over elements that point to the
    strings [strs] of the heap [h]: the value [r], the strings joined at
    [b + k] with their terminator (when there is one at least), and every
    other block, those of [h] among them, as it was in [m]. *)
Definition copy_pass_result (h : heap) (b : block) (k : nat)
    (strs : list (list Z)) (m : mem) (r : val) (res : result val) : Prop :=
  exists m',
    res = Done r m' /\
    extends h m' /\
    (forall b', b' <> b -> blocks m' !! b' = blocks m !! b') /\
    avail m' = avail m /\
    (strs <> [] ->
     string_at m' (Vptr b (Z.of_nat k)) = Some (join strs) /\
     read m' (Vptr b (Z.of_nat (k + length (join strs)))) = Some (Vint 0)) /\
    (strs = [] -> m' = m).

(** What [concat] may have done when it returns [r] in [m'], started in
    [m]: every block of [m] is as it was, so every string of [m] is still
    there, and either [r] is [NULL] and nothing has changed, or [r] points
    to the start of the one block that is new. *)
Definition concat_frame (m : mem) (r : val) (m' : mem) : Prop :=
  extends m m' /\
  (forall p s, string_at m p = Some s -> string_at m' p = Some s) /\
  ((r = NULL /\ m' = m) \/
   (r = Vptr (length (blocks m)) 0 /\
    length (blocks m') = S (length (blocks m)))).

(** * Proofs *)

(** ** Machine arithmetic *)

Lemma to_int_range z : - 2 ^ 31 <= to_int z < 2 ^ 31.
Proof. unfold to_int. pose proof (Z.mod_pos_bound (z + 2 ^ 31) (2 ^ 32)). lia. Qed.

Lemma to_int_small z : - 2 ^ 31 <= z < 2 ^ 31 -> to_int z = z.
Proof. intros H. unfold to_int. rewrite Z.mod_small; lia. Qed.

Lemma to_int_add_l a b : to_int (to_int a + b) = to_int (a + b).
Proof.
  unfold to_int.
  replace ((a + 2 ^ 31) mod 2 ^ 32 - 2 ^ 31 + b + 2 ^ 31)
    with ((a + 2 ^ 31) mod 2 ^ 32 + b) by lia.
  rewrite Zplus_mod_idemp_l. f_equal. f_equal. lia.
Qed.

Lemma to_int_idem z : to_int (to_int z) = to_int z.
Proof. apply to_int_small, to_int_range. Qed.

Lemma to_long_small z : - 2 ^ 63 <= z < 2 ^ 63 -> to_long z = z.
Proof. intros H. unfold to_long. rewrite Z.mod_small; lia. Qed.

Lemma to_size_t_small z : 0 <= z < 2 ^ 64 -> to_size_t z = z.
Proof. intros H. unfold to_size_t. rewrite Z.mod_small; lia. Qed.

Lemma to_size_t_negative z : - 2 ^ 64 <= z < 0 -> to_size_t z = 2 ^ 64 + z.
Proof.
  intros H. unfold to_size_t.
  rewrite <- (Z.mod_small (2 ^ 64 + z) (2 ^ 64)) by lia.
  rewrite <- (Z_mod_plus_full z 1 (2 ^ 64)). f_equal. lia.
Qed.

(** The conversions: an [int] goes through them as it is. *)
Lemma as_int_int n : as_int (Vint (to_int n)) = Vint (to_int n).
Proof. cbn. by rewrite to_int_idem. Qed.


Lemma as_ptr_as_int v : as_ptr (as_int v) = as_int v.
Proof. by destruct v. Qed.

Lemma add_as_int v n : as_int (add (as_int v) (Vint n)) = add (as_int v) (Vint n).
Proof. destruct v; [done | apply as_int_int | done]. Qed.

(** The request of [concat]: the total plus one while the total fits an
    [int], and more than that from there on. *)
Lemma request_small total : 0 <= total < 2 ^ 31 -> request total = total + 1.
Proof.
  intros H. unfold request. rewrite to_int_small by lia.
  apply to_size_t_small. lia.
Qed.

Lemma request_large total :
  2 ^ 31 <= total -> total + 1 < 2 ^ 32 ->
  request total = 2 ^ 64 - 2 ^ 32 + total + 1.
Proof.
  intros H1 H2. unfold request.
  assert (to_int total = total - 2 ^ 32) as ->.
  { unfold to_int.
    rewrite <- (Z_mod_plus_full (total + 2 ^ 31) (-1) (2 ^ 32)).
    rewrite Z.mod_small; lia. }
  rewrite to_size_t_negative; lia.
Qed.

Lemma request_ge total :
  0 <= total -> total + 1 < 2 ^ 32 -> total + 1 <= request total.
Proof.
  intros H1 H2. destruct (Z.lt_ge_cases total (2 ^ 31)).
  - rewrite request_small; lia.
  - rewrite request_large; lia.
Qed.

(** ** The monad *)

Lemma bind_Done {A B} (c : M A) (k : A -> M B) m x m' :
  c m = Done x m' -> bind c k m = k x m'.
Proof. intros H. unfold bind. by rewrite H. Qed.

Lemma bind_Fault {A B} (c : M A) (k : A -> M B) m :
  c m = Fault -> bind c k m = Fault.
Proof. intros H. unfold bind. by rewrite H. Qed.

Lemma bind_assoc {A B C} (c : M A) (k1 : A -> M B) (k2 : B -> M C) m :
  bind (bind c k1) k2 m = bind c (fun x => bind (k1 x) k2) m.
Proof. unfold bind. by destruct (c m). Qed.

Lemma bind_inv_Done {A B} (c : M A) (k : A -> M B) m y m'' :
  bind c k m = Done y m'' -> exists x m', c m = Done x m' /\ k x m' = Done y m''.
Proof. unfold bind. destruct (c m) as [x m'| |]; [eauto | done | done]. Qed.

(** ** Memory *)

Lemma extends_refl (m : mem) : extends m m.
Proof. by intros b blk. Qed.

Lemma extends_trans h (m2 m3 : mem) :
  extends h m2 -> extends m2 m3 -> extends h m3.
Proof. intros H12 H23 b blk H. apply H23, H12, H. Qed.

Lemma cells_at_extends h (m : mem) p cells :
  extends h m -> cells_at h p = Some cells -> cells_at m p = Some cells.
Proof.
  intros Hext. unfold cells_at. destruct p as [|n|b ofs]; try done.
  destruct (0 <=? ofs); [|done].
  destruct (h b) as [blk|] eqn:Hb; [|done].
  unfold heap_of. by rewrite (Hext _ _ Hb).
Qed.

Lemma read_extends h (m : mem) p v :
  extends h m -> read h p = Some v -> read m p = Some v.
Proof.
  unfold read. intros Hext H.
  destruct (cells_at h p) as [cells|] eqn:Hc; [|done].
  by rewrite (cells_at_extends _ _ _ _ Hext Hc).
Qed.

Lemma string_at_extends h (m : mem) p cs :
  extends h m -> string_at h p = Some cs -> string_at m p = Some cs.
Proof.
  unfold string_at. intros Hext H.
  destruct (cells_at h p) as [cells|] eqn:Hc; [|done].
  by rewrite (cells_at_extends _ _ _ _ Hext Hc).
Qed.

Lemma load_read (m : mem) p v : read m p = Some v -> load p m = Done v m.
Proof. intros H. unfold load. by rewrite H. Qed.

Lemma read_lookup (m : mem) b i blk :
  blocks m !! b = Some blk -> read m (Vptr b (Z.of_nat i)) = blk !! i.
Proof.
  intros Hb. unfold read, cells_at, heap_of.
  destruct (Z.leb_spec 0 (Z.of_nat i)); [|lia].
  rewrite Hb, Nat2Z.id. cbn.
  by rewrite head_lookup, lookup_drop, Nat.add_0_r.
Qed.

Lemma is_list_extends h (m : mem) p elems :
  extends h m -> is_list h p elems -> is_list m p elems.
Proof.
  intros Hext. induction 1 as [|b ofs e nxt elems He Hn _ IH].
  - constructor.
  - econstructor; eauto using read_extends.
Qed.

(** ** The folds refine [foldM]

    The reducer may write to the memory, as [stpcpy] does, as long as an
    invariant [Inv] of the accumulator and the memory, kept by the reducer,
    makes sure that the blocks [h] the sequence lives in stay as they
    are. *)

Section FoldRefinement.
Variable h : heap.
Variable op : binop.
Variable Inv : val -> mem -> Prop.
Hypothesis Inv_extends : forall acc m, Inv acc m -> extends h m.
Hypothesis Inv_step :
  forall acc e m r m', Inv acc m -> op acc e m = Done r m' -> Inv r m'.

Lemma fold_list_foldM p elems :
  is_list h p elems ->
  forall fuel init m, (length elems < fuel)%nat -> Inv init m ->
    fold_list fuel p init op m = foldM op elems init m.
Proof.
  induction 1 as [|b ofs e nxt elems He Hn _ IH]; intros fuel init m Hfuel HI.
  - destruct fuel as [|fuel]; [simpl in Hfuel; lia | done].
  - destruct fuel as [|fuel]; [simpl in Hfuel; lia |].
    simpl in Hfuel. cbn [fold_list foldM truth].
    unfold value_of, next_of.
    rewrite (bind_Done _ _ m true m) by done.
    rewrite (bind_Done _ _ m e m)
      by (apply load_read; eauto using read_extends).
    unfold bind at 1. unfold bind at 2.
    destruct (op init e m) as [r m'| |] eqn:Hop; [|done|done].
    assert (Inv r m') as HI' by eauto.
    rewrite (bind_Done _ _ m' nxt m')
      by (apply load_read; cbn [add]; eauto using read_extends).
    apply IH; [lia | done].
Qed.

(** The loop of [fold_int_array] and [fold_array], started at index [k]
    over the cells [rest] that remain. *)
Lemma for_loop_foldM p rest :
  forall k init m,
    (forall j x, rest !! j = Some x ->
       read h (add p (Vint (Z.of_nat (k + j)))) = Some x) ->
    Inv init m ->
    for_loop (length rest) (Z.of_nat k)
      (fun i value => x <- load (add p (Vint i));; op value x) init m
    = foldM op rest init m.
Proof.
  induction rest as [|e rest IH]; intros k init m Hrest HI; [done|].
  cbn [length for_loop foldM].
  rewrite bind_assoc.
  rewrite (bind_Done _ _ m e m).
  2:{ apply load_read, (read_extends h); [eauto|].
      specialize (Hrest 0%nat e eq_refl).
      by rewrite Nat.add_0_r in Hrest. }
  unfold bind at 1. unfold bind at 2.
  destruct (op init e m) as [r m'| |] eqn:Hop; [|done|done].
  replace (Z.of_nat k + 1) with (Z.of_nat (S k)) by lia.
  apply IH; [|eauto].
  intros j x Hj. specialize (Hrest (S j) x Hj).
  by replace (S k + j)%nat with (k + S j)%nat by lia.
Qed.

Lemma fold_int_array_foldM p elems length init m :
  is_array h p elems ->
  length = Z.of_nat (List.length elems) ->
  Inv init m ->
  fold_int_array p length init op m = foldM op elems init m.
Proof.
  intros Harr -> HI. unfold fold_int_array, for_upto.
  rewrite Nat2Z.id. by apply (for_loop_foldM p elems 0%nat).
Qed.

(** [fold_array] is the same loop, and its result goes through [int]. *)
Lemma fold_array_foldM p elems length init m :
  is_array h p elems ->
  length = Z.of_nat (List.length elems) ->
  Inv init m ->
  fold_array p length init op m
  = (r <- foldM op elems init;; ret (as_int r)) m.
Proof.
  intros Harr -> HI. unfold fold_array, for_upto, bind.
  rewrite Nat2Z.id. by rewrite (for_loop_foldM p elems 0%nat).
Qed.

Lemma fold_counted_array_foldM p elems init m :
  is_counted_array h p elems ->
  Inv init m ->
  fold_counted_array p init op m
  = (r <- foldM op elems init;; ret (as_int r)) m.
Proof.
  intros (a & Ha & Hl & _ & Harr) HI. unfold fold_counted_array.
  rewrite (bind_Done _ _ m a m)
    by (apply load_read; eauto using read_extends).
  rewrite (bind_Done _ _ m (Vint (Z.of_nat (length elems))) m)
    by (apply load_read; eauto using read_extends).
  rewrite (bind_Done _ _ m (Z.of_nat (length elems)) m) by done.
  unfold bind at 1. rewrite (fold_array_foldM a elems) by done.
  unfold bind. destruct (foldM op elems init m) as [r m'| |]; [|done|done].
  cbn [ret]. by rewrite as_ptr_as_int.
Qed.
End FoldRefinement.

Lemma bind_ret {A} (c : M A) m : (x <- c;; ret x) m = c m.
Proof. unfold bind. by destruct (c m). Qed.

(** [fold_string_list] is [fold_list] under the reducer as [string_binop]
    types it: on every list, well formed or not. *)
Lemma fold_string_list_fold_list fuel :
  forall list init op m,
    fold_string_list fuel list init op m
    = fold_list fuel list init (int_result op) m.
Proof.
  induction fuel as [|fuel IH]; intros list init op m; [done|].
  cbn [fold_string_list fold_list]. unfold bind.
  destruct (truth list m) as [[] m1| |]; try done.
  destruct (value_of list m1) as [s m2| |]; try done.
  unfold int_result at 1. unfold bind.
  destruct (op init s m2) as [r m3| |]; try done. cbn [ret].
  destruct (next_of list m3) as [nxt m4| |]; [apply IH|done|done].
Qed.

Lemma fold_list_ext (op1 op2 : binop) :
  (forall acc e m, op1 acc e m = op2 acc e m) ->
  forall fuel list init m,
    fold_list fuel list init op1 m = fold_list fuel list init op2 m.
Proof.
  intros Hop. induction fuel as [|fuel IH]; intros list init m; [done|].
  cbn [fold_list]. unfold bind.
  destruct (truth list m) as [[] m1| |]; try done.
  destruct (value_of list m1) as [s m2| |]; try done.
  rewrite Hop. destruct (op2 init s m2) as [r m3| |]; try done.
  destruct (next_of list m3) as [nxt m4| |]; [apply IH|done|done].
Qed.

Lemma fold_string_list_foldM (h : heap) (op : binop)
    (Inv : val -> mem -> Prop) p elems :
  (forall acc m, Inv acc m -> extends h m) ->
  (forall acc e m r m',
     Inv acc m -> op acc e m = Done r m' -> Inv (as_int r) m') ->
  is_list h p elems ->
  forall fuel init m, (length elems < fuel)%nat -> Inv init m ->
    fold_string_list fuel p init op m = foldM (int_result op) elems init m.
Proof.
  intros Hext Hstep Hlist fuel init m Hfuel HI.
  rewrite fold_string_list_fold_list.
  apply (fold_list_foldM h (int_result op) Inv); [done| |done..].
  intros acc e m1 r m2 HI1 Hop. unfold int_result in Hop.
  apply bind_inv_Done in Hop as (r0 & m0 & Hop & Hret).
  injection Hret as <- <-. rewrite as_ptr_as_int. eauto.
Qed.

Lemma fold_list_folds (h : heap) fuel p elems :
  is_list h p elems -> (length elems < fuel)%nat ->
  folds (fold_list fuel) h p elems.
Proof.
  intros Hl Hfuel. exists (fun v => v). split; [done|].
  intros op Inv Hext Hstep init m HI.
  rewrite bind_ret. by apply (fold_list_foldM h op Inv).
Qed.

Lemma fold_counted_array_folds (h : heap) p elems :
  is_counted_array h p elems -> folds fold_counted_array h p elems.
Proof.
  intros Hc. exists as_int. split; [apply as_int_int|].
  intros op Inv Hext Hstep init m HI.
  by apply (fold_counted_array_foldM h op Inv).
Qed.

(** ** Strings *)

Lemma cstring_string_cells cs rest :
  Forall (fun c => c <> 0) cs -> cstring (string_cells cs ++ rest) = Some cs.
Proof.
  unfold string_cells. induction 1 as [|c cs Hc _ IH]; [done|].
  cbn [fmap list_fmap app cstring].
  destruct (Z.eqb_spec c 0) as [->|_]; [done|].
  change (cons c <$> cstring (((Vint <$> cs) ++ [Vint 0]) ++ rest) = Some (c :: cs)).
  by rewrite IH.
Qed.

Lemma cstring_inv cells cs :
  cstring cells = Some cs ->
  Forall (fun c => c <> 0) cs /\ exists rest, cells = string_cells cs ++ rest.
Proof.
  revert cs. induction cells as [|v cells IH]; intros cs H; [done|].
  destruct v as [|c|]; try done. cbn [cstring] in H.
  destruct (Z.eqb_spec c 0) as [->|Hc].
  - injection H as <-. split; [constructor|]. by exists cells.
  - destruct (cstring cells) as [cs'|] eqn:Hcs; [|done].
    injection H as <-. destruct (IH cs' eq_refl) as [Hnz [rest ->]].
    split; [by constructor|]. by exists rest.
Qed.

Lemma string_at_inv (h : heap) p cs :
  string_at h p = Some cs ->
  exists b ofs blk,
    p = Vptr b ofs /\ 0 <= ofs /\ h b = Some blk /\
    Forall (fun c => c <> 0) cs.
Proof.
  unfold string_at, cells_at. intros H.
  destruct p as [|n|b ofs]; try done.
  destruct (Z.leb_spec 0 ofs) as [Hofs|]; [|done].
  destruct (h b) as [blk|] eqn:Hb; [|done].
  cbn in H. apply cstring_inv in H as [Hnz _].
  by exists b, ofs, blk.
Qed.

Lemma strings_at_extends h (m : mem) elems strs :
  extends h m -> strings_at h elems strs -> strings_at m elems strs.
Proof.
  intros Hext H. eapply Forall2_impl; [exact H|].
  intros e s He. by eapply string_at_extends.
Qed.

Lemma strings_at_nonzero (h : heap) elems strs :
  strings_at h elems strs -> Forall (fun c => c <> 0) (join strs).
Proof.
  induction 1 as [|e s elems strs He _ IH]; [constructor|].
  change (join (s :: strs)) with (s ++ join strs).
  apply Forall_app. split; [|done].
  by destruct (string_at_inv _ _ _ He) as (? & ? & ? & _ & _ & _ & ?).
Qed.

Lemma total_length_cons s strs :
  total_length (s :: strs) = Z.of_nat (length s) + total_length strs.
Proof.
  unfold total_length. change (join (s :: strs)) with (s ++ join strs).
  rewrite length_app. lia.
Qed.

Lemma total_length_nonneg strs : 0 <= total_length strs.
Proof. unfold total_length. lia. Qed.

(** ** The length pass: [accumulate_length] *)

Lemma accumulate_length_string (m : mem) sum e s :
  string_at m e = Some s ->
  accumulate_length sum e m
  = Done (add (as_int sum) (Vint (Z.of_nat (length s)))) m.
Proof. intros H. unfold accumulate_length, bind, strlen. by rewrite H. Qed.

Lemma accumulate_length_mem sum e m r m' :
  accumulate_length sum e m = Done r m' -> m' = m.
Proof.
  unfold accumulate_length, bind, strlen.
  destruct (string_at m e); [|done]. cbn. by intros [= _ <-].
Qed.

(** What [accumulate_length] returns is an [int]. *)
Lemma accumulate_length_int sum e m r m' :
  accumulate_length sum e m = Done r m' -> as_int r = r.
Proof.
  unfold accumulate_length, bind, strlen.
  destruct (string_at m e); [|done]. cbn [ret]. intros [= <- _].
  apply add_as_int.
Qed.

Lemma int_result_accumulate_length acc e m :
  int_result accumulate_length acc e m = accumulate_length acc e m.
Proof.
  unfold int_result, bind.
  destruct (accumulate_length acc e m) as [r m'| |] eqn:H; [|done|done].
  cbn [ret]. by rewrite as_ptr_as_int, (accumulate_length_int _ _ _ _ _ H).
Qed.

(** Under [accumulate_length], [fold_string_list] is [fold_list]. *)
Lemma fold_string_list_accumulate_length fuel list init m :
  fold_string_list fuel list init accumulate_length m
  = fold_list fuel list init accumulate_length m.
Proof.
  rewrite fold_string_list_fold_list.
  apply fold_list_ext, int_result_accumulate_length.
Qed.

Lemma foldM_accumulate_length_mem elems acc m r m' :
  foldM accumulate_length elems acc m = Done r m' -> m' = m.
Proof.
  revert acc m. induction elems as [|e elems IH]; intros acc m H.
  - by injection H as _ <-.
  - cbn [foldM] in H. apply bind_inv_Done in H as (x & m1 & H1 & H2).
    apply accumulate_length_mem in H1 as ->. by apply IH in H2.
Qed.

Lemma foldM_accumulate_length_int elems :
  forall a m r m',
    foldM accumulate_length elems (Vint (to_int a)) m = Done r m' ->
    exists k, r = Vint (to_int k).
Proof.
  induction elems as [|e elems IH]; intros a m r m' H.
  - injection H as <- _. eauto.
  - cbn [foldM] in H. apply bind_inv_Done in H as (x & m1 & H1 & H2).
    unfold accumulate_length, bind, strlen in H1.
    destruct (string_at m e); [|done]. injection H1 as <- <-.
    cbn [as_int add] in H2. eauto.
Qed.

(** The length pass of any fold that refines [foldM]. *)
Lemma folds_accumulate_length fold (m : mem) coll elems :
  folds fold m coll elems ->
  fold coll (Vint 0) accumulate_length m
  = foldM accumulate_length elems (Vint 0) m.
Proof.
  intros (conv & Hconv & Hfolds).
  rewrite (Hfolds accumulate_length (fun _ m' => m' = m)); [| | |done].
  - unfold bind.
    destruct (foldM accumulate_length elems (Vint 0) m) as [r m'| |] eqn:H;
      [|done|done].
    apply (foldM_accumulate_length_int elems 0) in H as [k ->].
    cbn [ret]. by rewrite Hconv.
  - intros _ ? ->. apply extends_refl.
  - intros acc e m1 r m' -> H. by apply accumulate_length_mem in H.
Qed.

Lemma foldM_accumulate_length (m : mem) elems strs :
  strings_at m elems strs ->
  forall n, to_int n = n ->
    foldM accumulate_length elems (Vint n) m
    = Done (Vint (to_int (n + total_length strs))) m.
Proof.
  induction 1 as [|e s elems strs He _ IH]; intros n Hn.
  - cbn. unfold ret, total_length. cbn. by rewrite Z.add_0_r, Hn.
  - cbn [foldM].
    rewrite (bind_Done _ _ _ _ _ (accumulate_length_string _ _ _ _ He)).
    cbn [as_int add]. rewrite IH by apply to_int_idem.
    by rewrite to_int_add_l, Hn, total_length_cons, Z.add_assoc.
Qed.

(** ** The copy pass: [stpcpy] *)

Lemma length_string_cells cs : length (string_cells cs) = S (length cs).
Proof. unfold string_cells. rewrite length_app, length_fmap. cbn. lia. Qed.

Lemma length_write blk ofs new :
  (ofs + length new <= length blk)%nat ->
  length (write blk ofs new) = length blk.
Proof.
  intros H. unfold write.
  rewrite !length_app, length_take, length_drop. lia.
Qed.

(** A string written over the terminator of the string before it. *)
Lemma write_write blk ofs cs1 cs2 :
  (ofs + length cs1 + length cs2 + 1 <= length blk)%nat ->
  write (write blk ofs (string_cells cs1)) (ofs + length cs1)
    (string_cells cs2)
  = write blk ofs (string_cells (cs1 ++ cs2)).
Proof.
  intros H. unfold write at 1 3.
  rewrite !length_string_cells, length_app.
  assert (length (take ofs blk ++ (Vint <$> cs1)) = (ofs + length cs1)%nat)
    as Hpre by (rewrite length_app, length_take, length_fmap; lia).
  assert (write blk ofs (string_cells cs1)
          = (take ofs blk ++ (Vint <$> cs1))
              ++ Vint 0 :: drop (ofs + S (length cs1)) blk) as ->.
  { unfold write. rewrite length_string_cells. unfold string_cells.
    by rewrite <- !app_assoc. }
  rewrite (take_app_length' _ _ _ (eq_sym Hpre)).
  replace (ofs + length cs1 + S (length cs2))%nat
    with (length (take ofs blk ++ (Vint <$> cs1)) + S (length cs2))%nat
    by lia.
  rewrite drop_app_add. cbn [drop]. rewrite drop_drop.
  unfold string_cells. rewrite fmap_app, <- !app_assoc.
  do 5 f_equal. lia.
Qed.

Lemma write_all n new :
  length new = n -> write (replicate n Vundef) 0 new = new.
Proof.
  intros <-. unfold write. cbn [take Nat.add].
  rewrite drop_ge by (rewrite length_replicate; lia).
  by rewrite app_nil_r.
Qed.

Lemma stpcpy_inv b k e m r m' :
  stpcpy (Vptr b k) e m = Done r m' ->
  (exists k', r = Vptr b k') /\
  (forall b', b' <> b -> blocks m' !! b' = blocks m !! b') /\
  avail m' = avail m.
Proof.
  unfold stpcpy. destruct (string_at m e) as [cs|]; [|done].
  destruct (blocks m !! b) as [blk|]; [|done].
  destruct (_ && _); [|done]. intros [= <- <-]. split; [eauto|]. split; [|done].
  intros b' Hb'. cbn. by rewrite list_lookup_insert_ne.
Qed.

(** [stpcpy] to a block that is not one of [h] keeps the blocks of [h], and
    returns a pointer into the block it wrote to. *)
Lemma stpcpy_keeps (h : heap) b acc e m r m' :
  h b = None ->
  (exists k, acc = Vptr b k) /\ extends h m ->
  stpcpy acc e m = Done r m' ->
  (exists k, r = Vptr b k) /\ extends h m'.
Proof.
  intros Hb [[k ->] Hext] Hcpy.
  apply stpcpy_inv in Hcpy as ([k' ->] & Hframe & _).
  split; [eauto|]. intros b0 blk0 H0.
  rewrite Hframe; [by apply Hext|]. intros ->. congruence.
Qed.

(** A fold that refines [foldM], where its result is not used: what it
    does to the memory is what [foldM] does. *)
Lemma folds_discard {A} fold (h : heap) coll elems (op : binop)
    (Inv : val -> mem -> Prop) init (m : mem) (c : M A) :
  folds fold h coll elems ->
  (forall acc m, Inv acc m -> extends h m) ->
  (forall acc e m r m', Inv acc m -> op acc e m = Done r m' -> Inv r m') ->
  Inv init m ->
  (fold coll init op;;; c) m = (foldM op elems init;;; c) m.
Proof.
  intros (conv & _ & Hfolds) Hext Hstep HI. unfold bind at 1.
  rewrite (Hfolds op Inv Hext Hstep init m HI).
  unfold bind. by destruct (foldM op elems init m).
Qed.

(** The copy pass of any fold that refines [foldM], to a block that is not
    one of those the sequence lives in. *)
Lemma folds_stpcpy {A} fold (h : heap) coll elems b k (m : mem) (c : M A) :
  folds fold h coll elems ->
  h b = None -> extends h m ->
  (fold coll (Vptr b k) stpcpy;;; c) m
  = (foldM stpcpy elems (Vptr b k);;; c) m.
Proof.
  intros Hfolds Hb Hext.
  apply (folds_discard _ h _ _ _
           (fun acc m' => (exists k, acc = Vptr b k) /\ extends h m'));
    [done | | | eauto].
  - by intros acc m' [_ H].
  - intros acc e m1 r m2. by apply stpcpy_keeps.
Qed.

Lemma stpcpy_NULL e m : stpcpy NULL e m = Fault.
Proof. unfold stpcpy. by destruct (string_at m e). Qed.

Lemma stpcpy_Done b b' k ofs' s blk (m : mem) :
  string_at m (Vptr b' ofs') = Some s ->
  b' <> b ->
  blocks m !! b = Some blk ->
  (k + length s + 1 <= length blk)%nat ->
  stpcpy (Vptr b (Z.of_nat k)) (Vptr b' ofs') m
  = Done (Vptr b (Z.of_nat (k + length s)))
      (Mem (<[b := write blk k (string_cells s)]> (blocks m)) (avail m)).
Proof.
  intros Hs Hne Hb Hlen. unfold stpcpy. rewrite Hs, Hb.
  assert (overlap (Vptr b (Z.of_nat k)) (Vptr b' ofs')
            (Z.of_nat (length s) + 1) = false) as ->.
  { unfold overlap. by rewrite bool_decide_eq_false_2. }
  destruct (Z.leb_spec 0 (Z.of_nat k)); [|lia].
  destruct (Z.leb_spec (Z.of_nat k + Z.of_nat (length s) + 1)
              (Z.of_nat (length blk))); [|lia].
  cbn [andb negb]. rewrite Nat2Z.id. do 2 f_equal. lia.
Qed.

Lemma extends_insert_fresh (h : heap) m b blk :
  h b = None ->
  extends h m ->
  extends h (Mem (<[b := blk]> (blocks m)) (avail m)).
Proof.
  intros Hb Hext b0 blk0 H0. cbn.
  rewrite list_lookup_insert_ne; [by apply Hext|].
  intros ->. congruence.
Qed.

(** The copy pass over [elems], from offset [k] of the block [b], a block
    that is not one of [h], where the strings are. *)
Lemma foldM_stpcpy (h : heap) b elems strs :
  h b = None ->
  strings_at h elems strs ->
  forall m k blk,
    extends h m ->
    blocks m !! b = Some blk ->
    (k + length (join strs) + 1 <= length blk)%nat ->
    foldM stpcpy elems (Vptr b (Z.of_nat k)) m
    = Done (Vptr b (Z.of_nat (k + length (join strs))))
        (Mem (<[b := copied blk k strs]> (blocks m)) (avail m)).
Proof.
  intros Hfresh. induction 1 as [|e s elems strs He Hrest IH];
    intros m k blk Hext Hb Hlen.
  - cbn. unfold ret. rewrite Nat.add_0_r, (list_insert_id _ _ _ Hb).
    by destruct m.
  - destruct (string_at_inv _ _ _ He) as (b' & ofs' & blk' & -> & _ & Hb' & _).
    assert (b' <> b) as Hne by (intros ->; congruence).
    assert (join (s :: strs) = s ++ join strs) as Hjoin by done.
    rewrite Hjoin, length_app in *.
    cbn [foldM].
    erewrite bind_Done.
    2:{ apply stpcpy_Done; [by eapply string_at_extends | done | done | lia]. }
    rewrite (IH _ (k + length s)%nat (write blk k (string_cells s))).
    + cbn [blocks avail]. rewrite list_insert_insert_eq.
      f_equal; [f_equal; lia|]. do 2 f_equal.
      destruct strs as [|s' strs]; cbn [copied].
      * by rewrite Hjoin, app_nil_r.
      * rewrite Hjoin. apply write_write. lia.
    + by apply extends_insert_fresh.
    + cbn. apply list_lookup_insert_eq. by eapply lookup_lt_Some.
    + rewrite length_write; rewrite ?length_string_cells; lia.
Qed.

(** ** [malloc] *)

Lemma malloc_Done size m :
  size <= avail m ->
  malloc size m
  = Done (Vptr (length (blocks m)) 0)
      (Mem (blocks m ++ [replicate (Z.to_nat size) Vundef]) (avail m - size)).
Proof. intros H. unfold malloc. by destruct (Z.leb_spec size (avail m)); [|lia]. Qed.

Lemma malloc_NULL size m : avail m < size -> malloc size m = Done NULL m.
Proof. intros H. unfold malloc. by destruct (Z.leb_spec size (avail m)); [lia|]. Qed.

Lemma extends_app (m : mem) blks a : extends m (Mem (blocks m ++ blks) a).
Proof. intros b blk H. cbn. by apply lookup_app_l_Some. Qed.

(** ** [concat] *)

(** The size [concat] and [concat_string_list] ask [malloc] for, and the
    size [concat_list] asks for. *)
Lemma concat_size n : size_of (add_ptr (Vint (to_int n)) 1) = ret (request n).
Proof.
  cbn [add_ptr size_of]. unfold request.
  pose proof (to_int_range n). by rewrite to_long_small by lia.
Qed.

Lemma concat_list_size n :
  0 <= n -> n + 1 < 2 ^ 31 ->
  size_of (add (Vint (to_int n)) (Vint 1)) = ret (n + 1).
Proof.
  intros H0 H1. cbn [add size_of].
  by rewrite to_int_add_l, to_int_small, to_size_t_small by lia.
Qed.

Lemma concat_list_size_ge n :
  0 <= n -> n + 1 < 2 ^ 32 ->
  exists size,
    size_of (add (Vint (to_int n)) (Vint 1)) = ret size /\ n + 1 <= size.
Proof.
  intros H0 H1. cbn [add size_of]. eexists. split; [done|].
  rewrite to_int_add_l. destruct (Z.lt_ge_cases (n + 1) (2 ^ 31)).
  - by rewrite to_int_small, to_size_t_small by lia.
  - assert (to_int (n + 1) = n + 1 - 2 ^ 32) as ->.
    { unfold to_int.
      rewrite <- (Z_mod_plus_full (n + 1 + 2 ^ 31) (-1) (2 ^ 32)).
      rewrite Z.mod_small; lia. }
    rewrite to_size_t_negative; lia.
Qed.

(** [concat] over any fold that refines [foldM] is the two passes of
    [foldM]: whatever the shape of the collection, and whatever [malloc]
    answers. *)
Lemma concat_foldM fold (m : mem) coll elems :
  folds fold m coll elems ->
  concat fold coll m
  = (n <- foldM accumulate_length elems (Vint 0);;
     size <- size_of (add_ptr n 1);;
     outbuf <- malloc size;;
     foldM stpcpy elems outbuf;;;
     ret outbuf) m.
Proof.
  intros Hfolds. unfold concat.
  unfold bind at 1 5. rewrite (folds_accumulate_length _ _ _ _ Hfolds).
  destruct (foldM accumulate_length elems (Vint 0) m) as [n m'| |] eqn:Hn;
    [|done|done].
  apply foldM_accumulate_length_mem in Hn as ->.
  unfold bind at 1 4.
  destruct (size_of (add_ptr n 1) m) as [size m'| |] eqn:Hsize;
    [|done|done].
  assert (m' = m) as ->.
  { destruct (add_ptr n 1); try done. by injection Hsize as _ <-. }
  unfold bind at 1 3. unfold malloc.
  destruct (size <=? avail m).
  - apply (folds_stpcpy _ m); [done | | apply extends_app].
    by apply lookup_ge_None_2.
  - apply (folds_discard _ m _ _ _ (fun acc m' => acc = NULL /\ m' = m));
      [done | | | done].
    + intros acc m' [_ ->]. apply extends_refl.
    + intros acc e m2 r m' [-> ->] Hcpy. by rewrite stpcpy_NULL in Hcpy.
Qed.

(** [concat] when [malloc] serves its request [size]: the new block has
    [size] cells, and the strings are joined in its first cells. *)
Lemma concat_Done_request fold (m : mem) coll elems strs :
  folds fold m coll elems ->
  strings_at m elems strs ->
  elems <> [] ->
  total_length strs + 1 < 2 ^ 32 ->
  request (total_length strs) <= avail m ->
  concat fold coll m
  = Done (Vptr (length (blocks m)) 0)
      (Mem (blocks m
              ++ [write (replicate (Z.to_nat (request (total_length strs)))
                           Vundef)
                    0 (string_cells (join strs))])
           (avail m - request (total_length strs))).
Proof.
  intros Hfolds Hstrs Hne Hsmall Havail.
  pose proof (total_length_nonneg strs) as Hnn.
  pose proof (request_ge _ Hnn Hsmall) as Hreq.
  rewrite (concat_foldM _ _ _ _ Hfolds).
  rewrite (bind_Done _ _ m (Vint (to_int (total_length strs))) m)
    by (by rewrite (foldM_accumulate_length _ _ _ Hstrs)).
  rewrite concat_size.
  rewrite (bind_Done _ _ m (request (total_length strs)) m) by done.
  erewrite bind_Done by (by apply malloc_Done).
  set (b := length (blocks m)).
  set (size := request (total_length strs)) in *.
  set (m1 := Mem _ _).
  erewrite bind_Done; [reflexivity|].
  change 0 with (Z.of_nat 0).
  rewrite (foldM_stpcpy m b elems strs (lookup_ge_None_2 _ _ (Nat.le_refl _))
             Hstrs m1 0%nat (replicate (Z.to_nat size) Vundef)).
  - destruct Hstrs as [|e s elems strs He Hrest]; [done|].
    unfold m1, copied. cbn [blocks avail].
    rewrite insert_app_r_alt by done.
    by rewrite Nat.sub_diag.
  - apply extends_app.
  - unfold m1, b. cbn [blocks]. by rewrite lookup_app_r, Nat.sub_diag.
  - rewrite length_replicate. unfold total_length in *. lia.
Qed.

(** While the total fits an [int] the request is the total plus one, and
    the new block holds the joined string and nothing else. *)
Lemma concat_Done fold (m : mem) coll elems strs :
  folds fold m coll elems ->
  strings_at m elems strs ->
  elems <> [] ->
  total_length strs < 2 ^ 31 ->
  total_length strs + 1 <= avail m ->
  concat fold coll m = Done (Vptr (length (blocks m)) 0) (concat_mem m strs).
Proof.
  intros Hfolds Hstrs Hne Hsmall Havail.
  pose proof (total_length_nonneg strs) as Hnn.
  pose proof (request_small (total_length strs)) as Hreq.
  rewrite (concat_Done_request _ _ _ _ _ Hfolds Hstrs Hne) by lia.
  rewrite Hreq by lia. unfold concat_mem. rewrite write_all; [done|]. rewrite length_string_cells. unfold total_length. lia.
Qed.

(** ** The fold operations *)

(** C3, on the code.  A pointer accumulator does not come through
    [fold_string_list], [fold_array] and [fold_counted_array] as the
    reducer returned it.  With a buffer in block 10 and [stpcpy] as the
    reducer, [fold_list] over the list of [main] returns what the reducer
    chain [stpcpy (stpcpy buf "foo") "bar"] returns, the pointer to the
    terminator; [fold_string_list] over the same list reads the result of
    the first [stpcpy] as an [int], hands [stpcpy] what is left of it as
    the destination of the second copy, and faults; [fold_array] and
    [fold_counted_array] over the array of [main] copy both strings and
    then return the pointer cut to an [int]. *)
Theorem fold_cuts_pointer_accumulator :
  (exists m',
     foldM stpcpy [Vptr 1 0; Vptr 0 0] (Vptr 10 0) buffer_mem
     = Done (Vptr 10 6) m' /\
     fold_list 3 (Vptr 3 0) (Vptr 10 0) stpcpy buffer_mem
     = Done (Vptr 10 6) m') /\
  fold_string_list 3 (Vptr 3 0) (Vptr 10 0) stpcpy buffer_mem = Fault /\
  (exists m',
     foldM stpcpy [Vptr 4 0; Vptr 5 0] (Vptr 10 0) buffer_mem
     = Done (Vptr 10 10) m' /\
     fold_array (Vptr 6 0) 2 (Vptr 10 0) stpcpy buffer_mem = Done Vundef m' /\
     fold_counted_array (Vptr 7 0) (Vptr 10 0) stpcpy buffer_mem
     = Done Vundef m').
Proof.
  split; [|split].
  - eexists. split; reflexivity.
  - reflexivity.
  - eexists. repeat split; reflexivity.
Qed.

(** C6, on the code.  Over an empty sequence, [fold_list] and
    [fold_string_list] return the initial accumulator as it is, and so does
    [fold_int_array], whose accumulator is an [int]; [fold_array] and
    [fold_counted_array] return it through the [int] result of
    [fold_array], and a pointer does not come back: on a counted array of
    length 0, from the pointer to the cell of block 1, [fold_counted_array]
    returns an undefined value. *)
Theorem fold_empty_cuts_pointer :
  fold_counted_array (Vptr 0 0) (Vptr 1 0) stpcpy
    (Mem [[NULL; Vint 0]; [Vundef]] 0)
  = Done Vundef (Mem [[NULL; Vint 0]; [Vundef]] 0) /\
  fold_array NULL 0 (Vptr 1 0) stpcpy (Mem [[NULL; Vint 0]; [Vundef]] 0)
  = Done Vundef (Mem [[NULL; Vint 0]; [Vundef]] 0) /\
  fold_list 1 NULL (Vptr 1 0) stpcpy (Mem [[NULL; Vint 0]; [Vundef]] 0)
  = Done (Vptr 1 0) (Mem [[NULL; Vint 0]; [Vundef]] 0) /\
  fold_string_list 1 NULL (Vptr 1 0) stpcpy (Mem [[NULL; Vint 0]; [Vundef]] 0)
  = Done (Vptr 1 0) (Mem [[NULL; Vint 0]; [Vundef]] 0) /\
  fold_int_array NULL 0 (Vint 7) sum (Mem [[NULL; Vint 0]; [Vundef]] 0)
  = Done (Vint 7) (Mem [[NULL; Vint 0]; [Vundef]] 0).
Proof. by repeat split. Qed.

(** *** Pure reducers *)

Lemma pure_on_cons m e elems op f :
  pure_on m (e :: elems) op f -> pure_on m elems op f.
Proof. intros H acc x Hx. apply H. by right. Qed.

Lemma pure_on_int_result m elems op f :
  pure_on m elems op f ->
  pure_on m elems (int_result op) (fun acc e => as_int <$> f acc e).
Proof.
  intros H acc e He. unfold int_result, bind. rewrite (H acc e He).
  destruct (f acc e) as [r|]; [|done]. cbn. by rewrite as_ptr_as_int.
Qed.

Lemma fold_list_pure (m : mem) op f :
  forall p elems,
    is_list m p elems -> pure_on m elems op f ->
    forall fuel init, (length elems < fuel)%nat ->
      fold_list fuel p init op m = outcome (fold_opt f elems init) m.
Proof.
  induction 1 as [|b ofs e nxt elems He Hn _ IH]; intros Hop fuel init Hfuel.
  - destruct fuel as [|fuel]; [simpl in Hfuel; lia | done].
  - destruct fuel as [|fuel]; [simpl in Hfuel; lia |].
    simpl in Hfuel. cbn [fold_list fold_opt truth].
    unfold value_of, next_of.
    rewrite (bind_Done _ _ m true m) by done.
    rewrite (bind_Done _ _ m e m) by (by apply load_read).
    unfold bind at 1. rewrite (Hop init e) by left.
    destruct (f init e) as [r|]; [|done]. cbn [outcome mbind option_bind].
    rewrite (bind_Done _ _ m nxt m) by (by apply load_read).
    apply IH; [by eapply pure_on_cons | lia].
Qed.

Lemma for_loop_pure (m : mem) op f p :
  forall rest k init,
    (forall j x, rest !! j = Some x ->
       read m (add p (Vint (Z.of_nat (k + j)))) = Some x) ->
    pure_on m rest op f ->
    for_loop (length rest) (Z.of_nat k)
      (fun i value => x <- load (add p (Vint i));; op value x) init m
    = outcome (fold_opt f rest init) m.
Proof.
  induction rest as [|e rest IH]; intros k init Hrest Hop; [done|].
  cbn [length for_loop fold_opt].
  rewrite bind_assoc.
  rewrite (bind_Done _ _ m e m).
  2:{ apply load_read. specialize (Hrest 0%nat e eq_refl).
      by rewrite Nat.add_0_r in Hrest. }
  unfold bind at 1. rewrite (Hop init e) by left.
  destruct (f init e) as [r|]; [|done]. cbn [outcome mbind option_bind].
  replace (Z.of_nat k + 1) with (Z.of_nat (S k)) by lia.
  apply IH; [|by eapply pure_on_cons].
  intros j x Hj. specialize (Hrest (S j) x Hj).
  by replace (S k + j)%nat with (k + S j)%nat by lia.
Qed.

Lemma fold_int_array_pure (m : mem) op f p elems init :
  is_array m p elems -> pure_on m elems op f ->
  fold_int_array p (Z.of_nat (length elems)) init op m
  = outcome (fold_opt f elems init) m.
Proof.
  intros Harr Hop. unfold fold_int_array, for_upto. rewrite Nat2Z.id.
  by apply (for_loop_pure m op f p elems 0%nat).
Qed.

Lemma fold_array_pure (m : mem) op f p elems init :
  is_array m p elems -> pure_on m elems op f ->
  fold_array p (Z.of_nat (length elems)) init op m
  = outcome (as_int <$> fold_opt f elems init) m.
Proof.
  intros Harr Hop. unfold fold_array, for_upto, bind. rewrite Nat2Z.id.
  rewrite (for_loop_pure m op f p elems 0%nat) by done.
  by destruct (fold_opt f elems init).
Qed.

Lemma fold_counted_array_pure (m : mem) op f p elems init :
  is_counted_array m p elems -> pure_on m elems op f ->
  fold_counted_array p init op m
  = outcome (as_int <$> fold_opt f elems init) m.
Proof.
  intros (a & Ha & Hl & _ & Harr) Hop. unfold fold_counted_array.
  rewrite (bind_Done _ _ m a m) by (by apply load_read).
  rewrite (bind_Done _ _ m (Vint (Z.of_nat (length elems))) m)
    by (by apply load_read).
  rewrite (bind_Done _ _ m (Z.of_nat (length elems)) m) by done.
  unfold bind. rewrite (fold_array_pure m op f a elems) by done.
  destruct (fold_opt f elems init) as [r|]; [|done].
  cbn. by rewrite as_ptr_as_int.
Qed.

(** C7.  With a reducer that is pure on the elements of the sequence (it
    leaves the memory as it is, and what it returns, or whether it faults,
    is a function of the accumulator and the element) a fold has no effect:
    when it returns it does so in the memory it started in, so the sequence
    (its elements, its links, its length) is as it was; and what it
    returns is the left fold of that function over the elements from the
    initial accumulator, passed through the conversions of the fold, which
    depends on nothing else: not on the shape of the sequence, nor on where
    it is stored. *)
Theorem fold_pure (m : mem) (elems : list val) (op : binop)
    (f : val -> val -> option val) (init : val) :
  pure_on m elems op f ->
  (forall array,
     is_array m array elems ->
     fold_int_array array (Z.of_nat (length elems)) init op m
     = outcome (fold_opt f elems init) m /\
     fold_array array (Z.of_nat (length elems)) init op m
     = outcome (as_int <$> fold_opt f elems init) m) /\
  (forall list fuel,
     is_list m list elems -> (length elems < fuel)%nat ->
     fold_string_list fuel list init op m
     = outcome (fold_opt (fun acc e => as_int <$> f acc e) elems init) m /\
     fold_list fuel list init op m = outcome (fold_opt f elems init) m) /\
  (forall array,
     is_counted_array m array elems ->
     fold_counted_array array init op m
     = outcome (as_int <$> fold_opt f elems init) m).
Proof.
  intros Hop. split; [|split].
  1: intros array Harr; split.
  3: intros list fuel Hlist Hfuel; split.
  5: intros array Harr.
  - by apply fold_int_array_pure.
  - by apply fold_array_pure.
  - rewrite fold_string_list_fold_list.
    by apply fold_list_pure; [|apply pure_on_int_result|].
  - by apply fold_list_pure.
  - by apply fold_counted_array_pure.
Qed.

(** ** The sums *)

Lemma sum_pure : pure_op sum (fun _ => add).
Proof. done. Qed.

Lemma sum_pure_on m elems : pure_on m elems sum (fun x y => Some (add x y)).
Proof. done. Qed.

(** C9.  Folding the array [1, 2, 3, 4] from 0 with the addition reducer
    gives 10, and so does [sum_array] on that array with length 4, wherever
    the array is stored. *)
Theorem sum_array_1234 (m : mem) (array : val) :
  is_array m array [Vint 1; Vint 2; Vint 3; Vint 4] ->
  fold_int_array array 4 (Vint 0) sum m = Done (Vint 10) m /\
  sum_array array 4 m = Done (Vint 10) m.
Proof.
  intros Harr.
  pose proof (fold_int_array_pure m sum _ array _ (Vint 0) Harr
                (sum_pure_on m _)) as H.
  by split.
Qed.

Lemma size_list_loop_fold fuel :
  forall list a m,
    size_list_loop fuel list (Vint (to_int a)) m
    = fold_string_list fuel list (Vint (to_int a)) accumulate_length m.
Proof.
  induction fuel as [|fuel IH]; intros list a m; [done|].
  cbn [size_list_loop fold_string_list]. unfold accumulate_length, bind.
  destruct (truth list m) as [[] m1| |]; try done.
  destruct (value_of list m1) as [s m2| |]; try done.
  destruct (strlen s m2) as [n m3| |]; try done.
  cbn [ret]. destruct (next_of list m3) as [nxt m4| |]; [|done|done].
  cbn [as_int as_ptr add]. rewrite !to_int_idem. apply IH.
Qed.

Lemma size_list_fold fuel list m :
  size_list fuel list m
  = fold_string_list fuel list (Vint 0) accumulate_length m.
Proof. apply (size_list_loop_fold fuel list 0). Qed.

(** C10.  The direct and the fold-based formulations are the same
    computation: [sum_array] and [sum_array_direct] on every array and
    length, [size_list] and the fold of [accumulate_length] from 0 on every
    list, end alike from every memory (with the same value, or with the same
    fault). *)
Theorem direct_fold_equiv :
  (forall xs n m, sum_array xs n m = sum_array_direct xs n m) /\
  (forall fuel l m,
     size_list fuel l m = fold_string_list fuel l (Vint 0) accumulate_length m).
Proof.
  split.
  - done.
  - apply size_list_fold.
Qed.

(** ** [concat] joins the strings *)

Lemma join_length_sum strs : length (join strs) = sum_list (length <$> strs).
Proof.
  induction strs as [|s strs IH]; [done|].
  change (join (s :: strs)) with (s ++ join strs).
  rewrite length_app, IH. done.
Qed.

Lemma string_at_concat_mem m strs :
  Forall (fun c => c <> 0) (join strs) ->
  string_at (concat_mem m strs) (Vptr (length (blocks m)) 0)
  = Some (join strs).
Proof.
  intros Hnz. unfold string_at, cells_at, concat_mem, heap_of.
  cbn [blocks Z.leb].
  change (0 <=? 0) with true. cbn iota.
  rewrite lookup_app_r, Nat.sub_diag by done. cbn.
  rewrite <- (app_nil_r (string_cells _)). by apply cstring_string_cells.
Qed.

(** The string at the start of a block it was written to. *)
Lemma string_at_written blks a n cs :
  Forall (fun c => c <> 0) cs ->
  string_at (Mem (blks ++ [write (replicate n Vundef) 0 (string_cells cs)]) a)
    (Vptr (length blks) 0)
  = Some cs.
Proof.
  intros Hnz. unfold string_at, cells_at, heap_of.
  cbn [blocks Z.leb].
  change (0 <=? 0) with true. cbn iota.
  rewrite lookup_app_r, Nat.sub_diag by done. cbn.
  by apply cstring_string_cells.
Qed.

Lemma concat_joins_folds fold (m : mem) coll elems strs :
  folds fold m coll elems ->
  strings_at m elems strs ->
  elems <> [] ->
  total_length strs + 1 < 2 ^ 32 ->
  request (total_length strs) <= avail m ->
  concat_joins fold coll m strs.
Proof.
  intros Hfolds Hstrs Hne Hsmall Havail.
  eexists _, _.
  split; [by eapply concat_Done_request|].
  pose proof (string_at_written (blocks m)
                (avail m - request (total_length strs))
                (Z.to_nat (request (total_length strs))) (join strs)
                (strings_at_nonzero _ _ _ Hstrs)) as Hres.
  split; [done|]. split.
  - unfold strlen. rewrite Hres. by rewrite join_length_sum.
  - apply extends_app.
Qed.

(** C1, amended.  For every non-empty sequence of strings, a linked list or
    a counted array, whose total length plus one is below [2^32]: when the
    allocation in [concat] succeeds (its request, [request], is within what
    [malloc] can still hand out), [concat] returns a string whose length
    is the sum of the lengths of the elements and whose content is their
    characters joined in traversal order with no separator. *)
Theorem concat_joins_sequence (m : mem) (elems : list val)
    (strs : list (list Z)) :
  strings_at m elems strs ->
  elems <> [] ->
  total_length strs + 1 < 2 ^ 32 ->
  request (total_length strs) <= avail m ->
  (forall list fuel,
     is_list m list elems -> (length elems < fuel)%nat ->
     concat_joins (fold_list fuel) list m strs) /\
  (forall array,
     is_counted_array m array elems ->
     concat_joins fold_counted_array array m strs).
Proof.
  intros Hstrs Hne Hsmall Havail. split.
  - intros list fuel Hlist Hfuel.
    by apply (concat_joins_folds _ _ _ elems); [apply fold_list_folds|..].
  - intros array Harr.
    by apply (concat_joins_folds _ _ _ elems);
      [apply fold_counted_array_folds|..].
Qed.

(** ** A total length that does not fit the accumulator *)

Lemma stpcpy_no_room b k src s blk (m : mem) :
  string_at m src = Some s ->
  blocks m !! b = Some blk ->
  Z.of_nat (length blk) < k + Z.of_nat (length s) + 1 ->
  stpcpy (Vptr b k) src m = Fault.
Proof.
  intros Hs Hb Hlen. unfold stpcpy. rewrite Hs, Hb.
  destruct (Z.leb_spec (k + Z.of_nat (length s) + 1) (Z.of_nat (length blk)));
    [lia|].
  by rewrite andb_false_r.
Qed.

Lemma repeated_mem_string n room :
  string_at (repeated_mem n room) (Vptr 0 0) = Some (replicate n 97).
Proof.
  unfold string_at, cells_at, repeated_mem, heap_of. cbn [blocks].
  change (0 <=? 0) with true. cbn [lookup list_lookup fmap option_fmap option_map mbind option_bind Z.to_nat drop].
  rewrite <- (app_nil_r (string_cells _)).
  apply cstring_string_cells. by apply Forall_replicate.
Qed.

Lemma repeated_mem_strings n room :
  strings_at (repeated_mem n room) (replicate n (Vptr 0 0))
    (replicate n (replicate n 97)).
Proof. apply Forall2_replicate, repeated_mem_string. Qed.

Lemma repeated_mem_counted_array n room :
  Z.of_nat n < 2 ^ 31 ->
  is_counted_array (repeated_mem n room) (Vptr 2 0) (replicate n (Vptr 0 0)).
Proof.
  intros Hn. exists (Vptr 1 0). rewrite length_replicate.
  split; [done|]. split; [done|]. split; [done|].
  intros i x Hi. apply lookup_replicate in Hi as [-> Hi].
  cbn [add]. rewrite Z.add_0_l.
  rewrite (read_lookup _ _ _ (replicate n (Vptr 0 0))) by done.
  by apply lookup_replicate_2.
Qed.

Lemma total_length_replicate n s :
  total_length (replicate n s) = Z.of_nat n * Z.of_nat (length s).
Proof.
  induction n as [|n IH].
  - done.
  - cbn [replicate]. rewrite total_length_cons, IH. lia.
Qed.

(** When the lengths add up to [2^32] the length pass wraps around to 0,
    [malloc] is asked for one cell and serves it, and the first copy runs
    over the end of that cell. *)
Lemma concat_repeated_overflow n :
  Z.of_nat n * Z.of_nat n = 2 ^ 32 ->
  (n <- fold_counted_array (Vptr 2 0) (Vint 0) accumulate_length;;
   size <- size_of (add_ptr n 1);;
   malloc size) (repeated_mem n 1)
  = Done (Vptr 3 0) (Mem (blocks (repeated_mem n 1) ++ [[Vundef]]) 0) /\
  concat fold_counted_array (Vptr 2 0) (repeated_mem n 1) = Fault.
Proof.
  intros Hn.
  assert (Z.of_nat n < 2 ^ 31) as Hlt by nia.
  set (m := repeated_mem n 1).
  pose proof (fold_counted_array_folds m (Vptr 2 0) _
                (repeated_mem_counted_array n 1 Hlt)) as Hfolds.
  pose proof (repeated_mem_strings n 1) as Hstrs. fold m in Hstrs.
  assert (foldM accumulate_length (replicate n (Vptr 0 0)) (Vint 0) m
          = Done (Vint 0) m) as Hpass1.
  { rewrite (foldM_accumulate_length _ _ _ Hstrs) by done.
    by rewrite total_length_replicate, length_replicate, Hn. }
  split.
  - rewrite (bind_Done _ _ m (Vint 0) m); [done|].
    by rewrite (folds_accumulate_length _ _ _ _ Hfolds).
  - rewrite (concat_foldM _ _ _ _ Hfolds).
    rewrite (bind_Done _ _ _ _ _ Hpass1).
    rewrite (bind_Done _ _ m 1 m) by done.
    rewrite (bind_Done _ _ m (Vptr 3 0)
               (Mem (blocks m ++ [[Vundef]]) 0)) by done.
    destruct n as [|n]; [lia|].
    cbn [replicate foldM]. apply bind_Fault, bind_Fault.
    apply (stpcpy_no_room _ _ _ (replicate (S n) 97) [Vundef]).
    + eapply string_at_extends; [apply extends_app|].
      apply repeated_mem_string.
    + done.
    + rewrite length_replicate. cbn [length]. lia.
Qed.

(** C1, as stated, fails.  A counted array of 65536 elements that all point
    to one string of 65536 characters (2^32 characters in all): the
    allocation in [concat] succeeds, and [concat] returns no string, it runs
    over the end of its buffer. *)
Lemma concat_total_length_wraps :
  strings_at (repeated_mem (Z.to_nat 65536) 1)
    (replicate (Z.to_nat 65536) (Vptr 0 0))
    (replicate (Z.to_nat 65536) (replicate (Z.to_nat 65536) 97)) /\
  is_counted_array (repeated_mem (Z.to_nat 65536) 1) (Vptr 2 0)
    (replicate (Z.to_nat 65536) (Vptr 0 0)) /\
  (n <- fold_counted_array (Vptr 2 0) (Vint 0) accumulate_length;;
   size <- size_of (add_ptr n 1);;
   malloc size) (repeated_mem (Z.to_nat 65536) 1)
  = Done (Vptr 3 0)
      (Mem (blocks (repeated_mem (Z.to_nat 65536) 1) ++ [[Vundef]]) 0) /\
  concat fold_counted_array (Vptr 2 0) (repeated_mem (Z.to_nat 65536) 1)
  = Fault.
Proof.
  split; [apply repeated_mem_strings|].
  split; [apply repeated_mem_counted_array; lia|].
  apply concat_repeated_overflow. lia.
Qed.

(** ** The scenarios of [main] *)

Lemma main_mem_list room :
  is_list (main_mem room) (Vptr 3 0) [Vptr 1 0; Vptr 0 0].
Proof. repeat econstructor. Qed.

Lemma main_mem_counted_array room :
  is_counted_array (main_mem room) (Vptr 7 0) [Vptr 4 0; Vptr 5 0].
Proof.
  exists (Vptr 6 0). split; [done|]. split; [done|]. split; [done|].
  intros [|[|i]] x Hi; cbn in Hi; by simplify_eq.
Qed.

Lemma main_mem_foo_bar room :
  strings_at (main_mem room) [Vptr 1 0; Vptr 0 0]
    [[102; 111; 111]; [98; 97; 114]].
Proof. by repeat constructor. Qed.

Lemma main_mem_hello_world room :
  strings_at (main_mem room) [Vptr 4 0; Vptr 5 0]
    [[104; 101; 108; 108; 111]; [119; 111; 114; 108; 100]].
Proof. by repeat constructor. Qed.

Lemma is_counted_array_extends h (m : mem) p elems :
  extends h m -> is_counted_array h p elems -> is_counted_array m p elems.
Proof.
  intros Hext (a & Ha & Hl & Hlt & Harr). exists a.
  repeat split; eauto using read_extends.
  intros i x Hi. eauto using read_extends.
Qed.

(** C8.  The two scenarios [main] asserts.  Wherever they are stored,
    [concat] over a list of "foo" then "bar" returns "foobar" and [concat]
    over a counted array of "hello" then "world" returns "helloworld", given
    fuel for the two nodes of the list and room for the result; and [main]
    itself, in its memory, runs to its end with both assertions passed. *)
Theorem main_scenarios :
  (forall (m : mem) list fuel e1 e2,
     is_list m list [e1; e2] ->
     string_at m e1 = Some [102; 111; 111] ->
     string_at m e2 = Some [98; 97; 114] ->
     (2 < fuel)%nat -> 7 <= avail m ->
     exists r m',
       concat (fold_list fuel) list m = Done r m' /\
       string_at m' r = Some [102; 111; 111; 98; 97; 114]) /\
  (forall (m : mem) array e1 e2,
     is_counted_array m array [e1; e2] ->
     string_at m e1 = Some [104; 101; 108; 108; 111] ->
     string_at m e2 = Some [119; 111; 114; 108; 100] ->
     11 <= avail m ->
     exists r m',
       concat fold_counted_array array m = Done r m' /\
       string_at m' r
       = Some [104; 101; 108; 108; 111; 119; 111; 114; 108; 100]) /\
  (forall fuel room,
     (2 < fuel)%nat -> 18 <= room ->
     exists m', main fuel (main_mem room) = Done tt m').
Proof.
  split; [|split].
  - intros m list fuel e1 e2 Hlist H1 H2 Hfuel Havail.
    assert (strings_at m [e1; e2] [[102; 111; 111]; [98; 97; 114]]) as Hstrs
      by (by repeat constructor).
    destruct (concat_joins_folds (fold_list fuel) m list [e1; e2] _
                (fold_list_folds _ _ _ _ Hlist Hfuel) Hstrs)
      as (r & m' & Hr & Hs & _); [done | done | by vm_compute |].
    by exists r, m'.
  - intros m array e1 e2 Harr H1 H2 Havail.
    assert (strings_at m [e1; e2]
              [[104; 101; 108; 108; 111]; [119; 111; 114; 108; 100]])
      as Hstrs by (by repeat constructor).
    destruct (concat_joins_folds fold_counted_array m array [e1; e2] _
                (fold_counted_array_folds _ _ _ Harr) Hstrs)
      as (r & m' & Hr & Hs & _); [done | done | by vm_compute |].
    by exists r, m'.
  - intros fuel room Hfuel Hroom.
    assert (folds (fold_list fuel) (main_mem room) (Vptr 3 0)
              [Vptr 1 0; Vptr 0 0]) as Hlist
      by (apply fold_list_folds; [apply main_mem_list | done]).
    unfold main.
    erewrite bind_Done.
    2:{ apply (concat_Done _ _ _ _ _ Hlist (main_mem_foo_bar room));
          [done | done | unfold total_length; cbn; lia]. }
    erewrite bind_Done by done. cbn [assert].
    erewrite (bind_Done (ret tt)) by done.
    set (m1 := concat_mem _ _).
    assert (extends (main_mem room) m1) as Hext by apply extends_app.
    erewrite bind_Done.
    2:{ apply (concat_Done _ _ _ [Vptr 4 0; Vptr 5 0]
                 [[104; 101; 108; 108; 111]; [119; 111; 114; 108; 100]]).
        - apply fold_counted_array_folds.
          eapply is_counted_array_extends; [exact Hext|].
          apply main_mem_counted_array.
        - eapply strings_at_extends; [exact Hext|].
          apply main_mem_hello_world.
        - done.
        - done.
        - unfold m1, concat_mem, total_length. cbn. lia. }
    erewrite bind_Done by done. by eexists.
Qed.

(** ** The empty sequence *)

Lemma concat_empty_list fuel m :
  (0 < fuel)%nat -> 1 <= avail m ->
  concat (fold_list fuel) NULL m
  = Done (Vptr (length (blocks m)) 0)
      (Mem (blocks m ++ [[Vundef]]) (avail m - 1)).
Proof.
  intros Hfuel Havail. destruct fuel as [|fuel]; [lia|].
  unfold concat. cbn [fold_list truth].
  rewrite (bind_Done _ _ m (Vint 0) m) by done.
  rewrite (bind_Done _ _ m 1 m) by done.
  by erewrite bind_Done by (by apply malloc_Done).
Qed.

(** C5, on the code.  [concat] over the empty list, and over a counted
    array of length 0, allocates one cell and returns it as [malloc] gave
    it: nothing is written to it, its first character is not a terminator
    but an undefined value, and taking the length of the result is a
    fault. *)
Theorem concat_empty_unterminated :
  concat (fold_list 1) NULL (Mem [] 1)
  = Done (Vptr 0 0) (Mem [[Vundef]] 0) /\
  concat fold_counted_array (Vptr 0 0) (Mem [[NULL; Vint 0]] 1)
  = Done (Vptr 1 0) (Mem [[NULL; Vint 0]; [Vundef]] 0) /\
  read (Mem [[Vundef]] 0) (Vptr 0 0) = Some Vundef /\
  strlen (Vptr 0 0) (Mem [[Vundef]] 0) = Fault.
Proof. by repeat split. Qed.

(** ** Allocation failure *)

Lemma concat_alloc_failure fold (m : mem) coll e elems strs :
  folds fold m coll (e :: elems) ->
  strings_at m (e :: elems) strs ->
  total_length strs + 1 < 2 ^ 32 ->
  avail m < total_length strs + 1 ->
  concat fold coll m = Fault.
Proof.
  intros Hfolds Hstrs Hsmall Havail.
  pose proof (total_length_nonneg strs) as Hnn.
  pose proof (request_ge _ Hnn Hsmall) as Hreq.
  rewrite (concat_foldM _ _ _ _ Hfolds).
  rewrite (bind_Done _ _ m (Vint (to_int (total_length strs))) m)
    by (by rewrite (foldM_accumulate_length _ _ _ Hstrs)).
  rewrite concat_size.
  rewrite (bind_Done _ _ m (request (total_length strs)) m) by done.
  erewrite bind_Done by (apply malloc_NULL; lia).
  cbn [foldM]. apply bind_Fault, bind_Fault, stpcpy_NULL.
Qed.

(** C2, on the code.  With no memory left, [malloc] returns [NULL] in all
    three concatenations of the list of [main]; [concat_list] and
    [concat_string_list] test it and return [NULL], in the memory they
    started in, while [concat] passes it to [stpcpy] as the destination:
    a write through the null pointer. *)
Theorem concat_writes_through_NULL :
  (n <- fold_list 3 (Vptr 3 0) (Vint 0) accumulate_length;;
   size <- size_of (add_ptr n 1);;
   malloc size) (main_mem 0) = Done NULL (main_mem 0) /\
  stpcpy NULL (Vptr 1 0) (main_mem 0) = Fault /\
  concat (fold_list 3) (Vptr 3 0) (main_mem 0) = Fault /\
  concat fold_counted_array (Vptr 7 0) (main_mem 0) = Fault /\
  concat_list 3 (Vptr 3 0) (main_mem 0) = Done NULL (main_mem 0) /\
  concat_string_list 3 (Vptr 3 0) (main_mem 0) = Done NULL (main_mem 0).
Proof. by repeat split. Qed.

(** C4, on the code.  On the list of [main], with no memory left,
    [concat(fold_list, l)] and [concat_string_list(l)] differ: the first
    faults, the second returns [NULL]. *)
Theorem concat_fold_list_differs :
  concat (fold_list 3) (Vptr 3 0) (main_mem 0) = Fault /\
  concat_string_list 3 (Vptr 3 0) (main_mem 0) = Done NULL (main_mem 0) /\
  concat (fold_list 3) (Vptr 3 0) (main_mem 0)
  <> concat_string_list 3 (Vptr 3 0) (main_mem 0).
Proof. by repeat split. Qed.

(** ** The concatenations compared *)

(** Whatever the shapes of two collections that hold the same elements,
    [concat] does the same on both. *)
Lemma concat_shape_independent fold1 fold2 (m : mem) coll1 coll2 elems :
  folds fold1 m coll1 elems ->
  folds fold2 m coll2 elems ->
  concat fold1 coll1 m = concat fold2 coll2 m.
Proof.
  intros H1 H2.
  by rewrite (concat_foldM _ _ _ _ H1), (concat_foldM _ _ _ _ H2).
Qed.

(** The length pass over a list of strings, in its three forms. *)
Lemma fold_list_accumulate_length fuel (m : mem) list elems strs :
  is_list m list elems ->
  (length elems < fuel)%nat ->
  strings_at m elems strs ->
  fold_list fuel list (Vint 0) accumulate_length m
  = Done (Vint (to_int (total_length strs))) m.
Proof.
  intros Hlist Hfuel Hstrs.
  rewrite (folds_accumulate_length (fold_list fuel) m list elems)
    by (by apply fold_list_folds).
  by rewrite (foldM_accumulate_length _ _ _ Hstrs).
Qed.

(** When the allocation fails, [concat_string_list] and [concat_list]
    return [NULL] and leave the memory as it was. *)
Lemma concat_string_list_alloc_failure fuel (m : mem) list elems strs :
  is_list m list elems ->
  (length elems < fuel)%nat ->
  strings_at m elems strs ->
  total_length strs + 1 < 2 ^ 32 ->
  avail m < total_length strs + 1 ->
  concat_string_list fuel list m = Done NULL m /\
  concat_list fuel list m = Done NULL m.
Proof.
  intros Hlist Hfuel Hstrs Hsmall Havail.
  pose proof (total_length_nonneg strs) as Hnn.
  pose proof (request_ge _ Hnn Hsmall) as Hreq.
  pose proof (fold_list_accumulate_length _ _ _ _ _ Hlist Hfuel Hstrs) as Hlen.
  split.
  - unfold concat_string_list, bind.
    rewrite fold_string_list_accumulate_length, Hlen.
    rewrite concat_size. cbn [ret].
    by rewrite malloc_NULL by lia.
  - unfold concat_list, bind.
    rewrite size_list_fold, fold_string_list_accumulate_length, Hlen.
    destruct (concat_list_size_ge _ Hnn Hsmall) as (size & -> & Hsize).
    cbn [ret]. by rewrite malloc_NULL by lia.
Qed.

(** ** The theorems at concrete inputs *)

Lemma concat_joins_sequence_witness :
  strings_at (main_mem 18) [Vptr 1 0; Vptr 0 0]
    [[102; 111; 111]; [98; 97; 114]] /\
  concat_joins (fold_list 3) (Vptr 3 0) (main_mem 18)
    [[102; 111; 111]; [98; 97; 114]] /\
  concat_joins fold_counted_array (Vptr 7 0) (main_mem 18)
    [[104; 101; 108; 108; 111]; [119; 111; 114; 108; 100]].
Proof.
  split; [by repeat constructor|]. split.
  - refine (proj1 (concat_joins_sequence (main_mem 18) [Vptr 1 0; Vptr 0 0]
                     [[102; 111; 111]; [98; 97; 114]] _ _ _ _)
              (Vptr 3 0) 3%nat _ _).
    + by repeat constructor.
    + discriminate.
    + reflexivity.
    + vm_compute. discriminate.
    + repeat econstructor.
    + cbn. lia.
  - refine (proj2 (concat_joins_sequence (main_mem 18) [Vptr 4 0; Vptr 5 0]
                     [[104; 101; 108; 108; 111]; [119; 111; 114; 108; 100]]
                     _ _ _ _)
              (Vptr 7 0) _).
    + by repeat constructor.
    + discriminate.
    + reflexivity.
    + vm_compute. discriminate.
    + exists (Vptr 6 0). split; [reflexivity|]. split; [reflexivity|].
      split; [reflexivity|].
      intros [|[|i]] x Hi; cbn in Hi; by simplify_eq.
Defined.

Lemma int_array_mem_array :
  is_array int_array_mem (Vptr 0 0) [Vint 1; Vint 2; Vint 3; Vint 4].
Proof. intros [|[|[|[|i]]]] x Hi; cbn in Hi; by simplify_eq. Defined.

Lemma fold_pure_witness :
  fold_string_list 3 (Vptr 3 0) (Vint 0) accumulate_length (main_mem 0)
  = Done (Vint 6) (main_mem 0) /\
  fold_array (Vptr 0 0) 4 (Vint 0) sum int_array_mem
  = Done (Vint 10) int_array_mem.
Proof.
  split.
  - refine (proj1 (proj1 (proj2 (fold_pure (main_mem 0) [Vptr 1 0; Vptr 0 0]
              accumulate_length
              (fun acc _ => Some (add (as_int acc) (Vint 3))) (Vint 0) _))
              (Vptr 3 0) 3%nat _ _)).
    + intros acc e He.
      apply elem_of_cons in He as [-> | He]; [reflexivity|].
      apply elem_of_cons in He as [-> | He]; [reflexivity|].
      by apply elem_of_nil in He.
    + repeat econstructor.
    + cbn. lia.
  - refine (proj2 (proj1 (fold_pure int_array_mem
              [Vint 1; Vint 2; Vint 3; Vint 4] sum
              (fun x y => Some (add x y)) (Vint 0) _) (Vptr 0 0) _)).
    + intros acc e He. reflexivity.
    + apply int_array_mem_array.
Defined.

Lemma main_scenarios_witness :
  (exists r m',
     concat (fold_list 3) (Vptr 3 0) (main_mem 18) = Done r m' /\
     string_at m' r = Some [102; 111; 111; 98; 97; 114]) /\
  (exists r m',
     concat fold_counted_array (Vptr 7 0) (main_mem 18) = Done r m' /\
     string_at m' r
     = Some [104; 101; 108; 108; 111; 119; 111; 114; 108; 100]) /\
  (exists m', main 3 (main_mem 18) = Done tt m').
Proof.
  split; [|split].
  - refine (proj1 main_scenarios (main_mem 18) (Vptr 3 0) 3%nat
              (Vptr 1 0) (Vptr 0 0) _ _ _ _ _).
    + repeat econstructor.
    + reflexivity.
    + reflexivity.
    + lia.
    + cbn. lia.
  - refine (proj1 (proj2 main_scenarios) (main_mem 18) (Vptr 7 0)
              (Vptr 4 0) (Vptr 5 0) _ _ _ _).
    + exists (Vptr 6 0). split; [reflexivity|]. split; [reflexivity|].
      split; [reflexivity|].
      intros [|[|i]] x Hi; cbn in Hi; by simplify_eq.
    + reflexivity.
    + reflexivity.
    + cbn. lia.
  - refine (proj2 (proj2 main_scenarios) 3%nat 18 _ _); lia.
Defined.

Lemma sum_array_1234_witness :
  fold_int_array (Vptr 0 0) 4 (Vint 0) sum int_array_mem
  = Done (Vint 10) int_array_mem /\
  sum_array (Vptr 0 0) 4 int_array_mem = Done (Vint 10) int_array_mem.
Proof. apply (sum_array_1234 int_array_mem (Vptr 0 0)), int_array_mem_array. Defined.

(** * Further properties of the program *)

(** ** The length pass *)

(** X1.  The length pass.  Over a list or a counted array whose elements
    point to strings, [size_list] and the folds of [accumulate_length] from
    0 return the total length of the strings, as the 32-bit [int] it wraps
    to, and leave the memory as it is. *)
Theorem length_pass (m : mem) (elems : list val) (strs : list (list Z)) :
  strings_at m elems strs ->
  (forall list fuel,
     is_list m list elems -> (length elems < fuel)%nat ->
     size_list fuel list m = Done (Vint (to_int (total_length strs))) m /\
     fold_string_list fuel list (Vint 0) accumulate_length m
     = Done (Vint (to_int (total_length strs))) m /\
     fold_list fuel list (Vint 0) accumulate_length m
     = Done (Vint (to_int (total_length strs))) m) /\
  (forall array,
     is_counted_array m array elems ->
     fold_counted_array array (Vint 0) accumulate_length m
     = Done (Vint (to_int (total_length strs))) m) /\
  (total_length strs < 2 ^ 31 -> to_int (total_length strs) = total_length strs).
Proof.
  intros Hstrs.
  assert (foldM accumulate_length elems (Vint 0) m
          = Done (Vint (to_int (total_length strs))) m) as Hpass
    by (by rewrite (foldM_accumulate_length _ _ _ Hstrs)).
  split; [|split].
  - intros list fuel Hlist Hfuel.
    rewrite size_list_fold, fold_string_list_accumulate_length.
    by rewrite (folds_accumulate_length _ _ _ _
                  (fold_list_folds _ _ _ _ Hlist Hfuel)).
  - intros array Harr.
    by rewrite (folds_accumulate_length _ _ _ _
                  (fold_counted_array_folds _ _ _ Harr)).
  - intros Hlt. apply to_int_small.
    pose proof (total_length_nonneg strs). lia.
Qed.

Lemma length_pass_witness :
  size_list 3 (Vptr 3 0) (main_mem 0) = Done (Vint 6) (main_mem 0) /\
  fold_counted_array (Vptr 7 0) (Vint 0) accumulate_length (main_mem 0)
  = Done (Vint 10) (main_mem 0).
Proof.
  split.
  - refine (proj1 (proj1 (length_pass (main_mem 0) [Vptr 1 0; Vptr 0 0]
              [[102; 111; 111]; [98; 97; 114]] _) (Vptr 3 0) 3%nat _ _)).
    + by repeat constructor.
    + repeat econstructor.
    + cbn. lia.
  - refine (proj1 (proj2 (length_pass (main_mem 0) [Vptr 4 0; Vptr 5 0]
              [[104; 101; 108; 108; 111]; [119; 111; 114; 108; 100]] _))
              (Vptr 7 0) _).
    + by repeat constructor.
    + exists (Vptr 6 0). split; [reflexivity|]. split; [reflexivity|].
      split; [reflexivity|].
      intros [|[|i]] x Hi; cbn in Hi; by simplify_eq.
Defined.

(** ** The sums *)

Lemma fold_opt_add_ints xs :
  forall a, to_int a = a ->
    fold_opt (fun x y => Some (add x y)) (Vint <$> xs) (Vint a)
    = Some (Vint (to_int (a + sumZ xs))).
Proof.
  induction xs as [|x xs IH]; intros a Ha.
  - cbn. by rewrite Z.add_0_r, Ha.
  - cbn [fmap list_fmap fold_opt add mbind option_bind].
    rewrite IH by apply to_int_idem.
    rewrite to_int_add_l. unfold sumZ. cbn [foldr]. by rewrite Z.add_assoc.
Qed.

(** X2.  The sums.  On an array of [int]s, [sum_array_direct] and
    [sum_array] return the sum of its elements, as the 32-bit [int] it wraps
    to (the sum itself when it is in range), and leave the memory as it
    is. *)
Theorem sum_array_sum (m : mem) (array : val) (xs : list Z) :
  is_array m array (Vint <$> xs) ->
  sum_array_direct array (Z.of_nat (length xs)) m
  = Done (Vint (to_int (sumZ xs))) m /\
  sum_array array (Z.of_nat (length xs)) m
  = Done (Vint (to_int (sumZ xs))) m /\
  (- 2 ^ 31 <= sumZ xs < 2 ^ 31 -> to_int (sumZ xs) = sumZ xs).
Proof.
  intros Harr.
  pose proof (fold_int_array_pure m sum _ array _ (Vint 0) Harr
                (sum_pure_on m _)) as H.
  rewrite length_fmap, fold_opt_add_ints in H by done.
  split; [exact H|]. split; [exact H|]. apply to_int_small.
Qed.

Lemma sum_array_sum_witness :
  sum_array_direct (Vptr 0 0) 4 int_array_mem = Done (Vint 10) int_array_mem.
Proof.
  refine (proj1 (sum_array_sum int_array_mem (Vptr 0 0) [1; 2; 3; 4] _)).
  intros [|[|[|[|i]]]] x Hi; cbn in Hi; by simplify_eq.
Defined.

(** ** Folding an array in two parts *)

Lemma add_add p a b : add (add p (Vint a)) (Vint b) = add p (Vint (a + b)).
Proof.
  destruct p as [|x|blk ofs]; cbn [add]; [done | |].
  - by rewrite to_int_add_l, Z.add_assoc.
  - by rewrite Z.add_assoc.
Qed.

Lemma bind_ext {A B} (c : M A) (k1 k2 : A -> M B) m :
  (forall x m', k1 x m' = k2 x m') -> bind c k1 m = bind c k2 m.
Proof. intros H. unfold bind. by destruct (c m). Qed.

Lemma for_loop_ext {A} (body1 body2 : Z -> A -> M A) :
  (forall i v m, body1 i v m = body2 i v m) ->
  forall n i v m, for_loop n i body1 v m = for_loop n i body2 v m.
Proof.
  intros Hbody. induction n as [|n IH]; intros i v m; [done|].
  cbn [for_loop]. unfold bind. rewrite Hbody.
  destruct (body2 i v m) as [v' m'| |]; [apply IH | done | done].
Qed.

Lemma for_loop_shift {A} (body : Z -> A -> M A) d :
  forall n i v m,
    for_loop n (i + d) body v m = for_loop n i (fun j => body (j + d)) v m.
Proof.
  induction n as [|n IH]; intros i v m; [done|].
  cbn [for_loop]. unfold bind.
  destruct (body (i + d) v m) as [v' m'| |]; [|done|done].
  replace (i + d + 1) with (i + 1 + d) by lia. apply IH.
Qed.

Lemma for_loop_app {A} (body : Z -> A -> M A) n2 :
  forall n1 i v m,
    for_loop (n1 + n2) i body v m
    = (v' <- for_loop n1 i body v;; for_loop n2 (i + Z.of_nat n1) body v') m.
Proof.
  induction n1 as [|n1 IH]; intros i v m.
  - cbn. by rewrite Z.add_0_r.
  - cbn [Nat.add for_loop]. rewrite bind_assoc. unfold bind at 1 2.
    destruct (body i v m) as [v' m'| |]; [|done|done].
    rewrite IH. unfold bind.
    destruct (for_loop n1 (i + 1) body v' m') as [v'' m''| |]; [|done|done].
    f_equal. lia.
Qed.

Lemma bind_ext_Done {A B} (c : M A) (k1 k2 : A -> M B) m :
  (forall x m', c m = Done x m' -> k1 x m' = k2 x m') ->
  bind c k1 m = bind c k2 m.
Proof. intros H. unfold bind. destruct (c m); [by apply H | done | done]. Qed.

Lemma bind_cong {A B} (c1 c2 : M A) (k : A -> M B) m :
  c1 m = c2 m -> bind c1 k m = bind c2 k m.
Proof. intros H. unfold bind. by rewrite H. Qed.

(** The accumulator of an array fold from an [int], under a reducer that
    returns [int]s, is an [int]. *)
Lemma for_loop_int (op : binop) p :
  (forall acc e m r m', op acc e m = Done r m' -> as_int r = r) ->
  forall n i init m r m',
    as_int init = init ->
    for_loop n i (fun i value => x <- load (add p (Vint i));; op value x)
      init m = Done r m' ->
    as_int r = r.
Proof.
  intros Hop. induction n as [|n IH]; intros i init m r m' Hinit H.
  - by injection H as <- _.
  - cbn [for_loop] in H.
    apply bind_inv_Done in H as (v & m1 & Hv & H).
    apply bind_inv_Done in Hv as (x & m0 & _ & Hv).
    apply Hop in Hv. eauto.
Qed.

(** X3.  Folding an array in two parts.  A fold over the first [n1 + n2]
    cells of an array is the fold over its first [n1] cells followed, from
    the accumulator that one returns, by the fold over the [n2] cells that
    start at [array + n1].  For [fold_int_array] this holds whatever the
    reducer does and whatever the memory holds.  For [fold_array], which
    returns its accumulator through an [int], it holds from an initial
    accumulator that is an [int], under a reducer whose results are
    [int]s. *)
Theorem fold_array_split (array : val) (n1 n2 : Z) (init : val) (op : binop)
    (m : mem) :
  0 <= n1 -> 0 <= n2 ->
  fold_int_array array (n1 + n2) init op m
  = (v <- fold_int_array array n1 init op;;
     fold_int_array (add array (Vint n1)) n2 v op) m /\
  (as_int init = init ->
   (forall acc e m1 r m2, op acc e m1 = Done r m2 -> as_int r = r) ->
   fold_array array (n1 + n2) init op m
   = (v <- fold_array array n1 init op;;
      fold_array (add array (Vint n1)) n2 v op) m).
Proof.
  intros H1 H2.
  assert (forall v m',
            for_loop (Z.to_nat n2) (0 + Z.of_nat (Z.to_nat n1))
              (fun i value => x <- load (add array (Vint i));; op value x)
              v m'
            = for_loop (Z.to_nat n2) 0
                (fun i value =>
                   x <- load (add (add array (Vint n1)) (Vint i));; op value x)
                v m') as Hshift.
  { intros v m'. rewrite Z2Nat.id by done. rewrite for_loop_shift.
    apply for_loop_ext. intros i v' m''.
    by rewrite add_add, (Z.add_comm n1 i). }
  split.
  - unfold fold_int_array, for_upto.
    rewrite Z2Nat.inj_add, for_loop_app by done.
    apply bind_ext. intros v m'. apply Hshift.
  - intros Hinit Hop. unfold fold_array, for_upto.
    rewrite Z2Nat.inj_add by done.
    etrans; [apply bind_cong, for_loop_app|].
    rewrite !bind_assoc. apply bind_ext_Done. intros v m' Hv.
    rewrite (bind_Done (ret (as_int v)) _ m' (as_int v) m') by done.
    rewrite (for_loop_int op array Hop _ _ _ _ _ _ Hinit Hv).
    apply bind_cong, Hshift.
Qed.

Lemma fold_array_split_witness :
  fold_array (Vptr 6 0) (1 + 1) (Vint 0) accumulate_length (main_mem 0)
  = (v <- fold_array (Vptr 6 0) 1 (Vint 0) accumulate_length;;
     fold_array (add (Vptr 6 0) (Vint 1)) 1 v accumulate_length) (main_mem 0).
Proof.
  refine (proj2 (fold_array_split (Vptr 6 0) 1 1 (Vint 0) accumulate_length
                   (main_mem 0) _ _) _ _).
  - lia.
  - lia.
  - reflexivity.
  - apply accumulate_length_int.
Defined.

(** ** A length beyond the array *)

Lemma for_loop_out_of_bounds (op : binop) f b ofs blk (m : mem) :
  pure_op op f ->
  blocks m !! b = Some blk ->
  0 <= ofs ->
  forall n i v,
    0 <= i ->
    ofs + i <= Z.of_nat (length blk) < ofs + i + Z.of_nat n ->
    for_loop n i
      (fun i value => x <- load (add (Vptr b ofs) (Vint i));; op value x) v m
    = Fault.
Proof.
  intros Hop Hb Hofs. induction n as [|n IH]; intros i v Hi Hlen; [lia|].
  cbn [for_loop add]. rewrite bind_assoc.
  assert (read m (Vptr b (ofs + i)) = blk !! Z.to_nat (ofs + i)) as Hread.
  { rewrite <- (Z2Nat.id (ofs + i)) at 1 by lia. by apply read_lookup. }
  destruct (blk !! Z.to_nat (ofs + i)) as [x|] eqn:Hx.
  - rewrite (bind_Done _ _ m x m) by (by apply load_read; rewrite Hread).
    rewrite (bind_Done _ _ _ _ _ (Hop v x m)).
    apply lookup_lt_Some in Hx.
    apply IH; lia.
  - apply bind_Fault. unfold load. by rewrite Hread.
Qed.

(** X4.  A length beyond the array.  When [array] points into a block that
    has fewer than [length] cells left from [array] on, the sums and the
    array folds (under any pure reducer) read past the end of the block:
    they fault, they do not return a value. *)
Theorem array_out_of_bounds (m : mem) (b : block) (ofs : Z) (blk : list val)
    (length : Z) :
  blocks m !! b = Some blk ->
  0 <= ofs <= Z.of_nat (List.length blk) ->
  Z.of_nat (List.length blk) < ofs + length ->
  sum_array_direct (Vptr b ofs) length m = Fault /\
  sum_array (Vptr b ofs) length m = Fault /\
  (forall op f init,
     pure_op op f ->
     fold_int_array (Vptr b ofs) length init op m = Fault /\
     fold_array (Vptr b ofs) length init op m = Fault).
Proof.
  intros Hb Hofs Hlen.
  assert (forall op f init, pure_op op f ->
            fold_int_array (Vptr b ofs) length init op m = Fault) as H.
  { intros op f init Hop. unfold fold_int_array, for_upto.
    apply (for_loop_out_of_bounds op f b ofs blk m Hop Hb); lia. }
  split; [|split].
  - apply (H sum _ (Vint 0) sum_pure).
  - apply (H sum _ (Vint 0) sum_pure).
  - intros op f init Hop. split; [by apply (H op f)|].
    apply bind_Fault. by apply (H op f).
Qed.

Lemma array_out_of_bounds_witness :
  sum_array_direct (Vptr 0 0) 5 int_array_mem = Fault /\
  sum_array (Vptr 0 2) 3 int_array_mem = Fault.
Proof.
  split.
  - refine (proj1 (array_out_of_bounds int_array_mem 0
                     0 [Vint 1; Vint 2; Vint 3; Vint 4] 5 _ _ _)).
    + reflexivity.
    + cbn. lia.
    + cbn. lia.
  - refine (proj1 (proj2 (array_out_of_bounds int_array_mem 0
                     2 [Vint 1; Vint 2; Vint 3; Vint 4] 3 _ _ _))).
    + reflexivity.
    + cbn. lia.
    + cbn. lia.
Defined.

(** ** The copy pass *)

Lemma string_at_write (m : mem) b blk k cs :
  blocks m !! b = Some (write blk k (string_cells cs)) ->
  (k + length cs + 1 <= length blk)%nat ->
  Forall (fun c => c <> 0) cs ->
  string_at m (Vptr b (Z.of_nat k)) = Some cs /\
  read m (Vptr b (Z.of_nat (k + length cs))) = Some (Vint 0).
Proof.
  intros Hb Hlen Hnz.
  assert (length (take k blk) = k) as Hk by (rewrite length_take; lia).
  split.
  - unfold string_at, cells_at, heap_of.
    destruct (Z.leb_spec 0 (Z.of_nat k)); [|lia].
    rewrite Hb, Nat2Z.id. cbn. unfold write.
    rewrite drop_app_length' by done.
    by apply cstring_string_cells.
  - rewrite (read_lookup _ _ _ _ Hb). unfold write, string_cells.
    rewrite lookup_app_r by lia. rewrite Hk.
    replace (k + length cs - k)%nat with (length (Vint <$> cs) + 0)%nat
      by (rewrite length_fmap; lia).
    rewrite <- app_assoc. by rewrite lookup_app_r, Nat.add_comm, Nat.add_sub
      by (rewrite ?length_fmap; lia).
Qed.

Lemma copy_pass_foldM (h : heap) b elems strs (m : mem) k blk :
  h b = None ->
  strings_at h elems strs ->
  extends h m ->
  blocks m !! b = Some blk ->
  (k + length (join strs) + 1 <= length blk)%nat ->
  copy_pass_result h b k strs m (Vptr b (Z.of_nat (k + length (join strs))))
    (foldM stpcpy elems (Vptr b (Z.of_nat k)) m).
Proof.
  intros Hfresh Hstrs Hext Hb Hlen.
  exists (Mem (<[b := copied blk k strs]> (blocks m)) (avail m)).
  split; [by apply (foldM_stpcpy h)|].
  split; [by apply extends_insert_fresh|].
  split; [by intros b' Hb'; cbn; rewrite list_lookup_insert_ne|].
  split; [done|]. split.
  - intros Hne. apply (string_at_write _ _ blk).
    + destruct strs as [|s strs]; [done|]. cbn [blocks copied].
      apply list_lookup_insert_eq. by eapply lookup_lt_Some.
    + done.
    + by eapply strings_at_nonzero.
  - intros ->. cbn [copied]. rewrite (list_insert_id _ _ _ Hb). by destruct m.
Qed.

(** The same pass where the result goes through a conversion. *)
Lemma copy_pass_result_conv h b k strs m r (c : M val) (conv : val -> val) :
  copy_pass_result h b k strs m r (c m) ->
  copy_pass_result h b k strs m (conv r) ((x <- c;; ret (conv x)) m).
Proof.
  intros (m' & Hres & H). exists m'. split; [|done].
  unfold bind. by rewrite Hres.
Qed.

(** [stpcpy] returns a pointer, or faults. *)
Lemma stpcpy_cases dst e m :
  stpcpy dst e m = Fault \/
  exists b k m', stpcpy dst e m = Done (Vptr b k) m'.
Proof.
  unfold stpcpy. destruct (string_at m e) as [cs|]; [|by left].
  destruct dst as [| |b ofs]; [by left | by left |].
  destruct (blocks m !! b) as [blk|]; [|by left].
  destruct (_ && _); [right; eauto | by left].
Qed.

Lemma stpcpy_Vundef e m : stpcpy Vundef e m = Fault.
Proof. unfold stpcpy. by destruct (string_at m e). Qed.

(** [stpcpy] as [fold_string_list] calls it: what it returns is lost. *)
Lemma int_result_stpcpy dst e m :
  int_result stpcpy dst e m = (stpcpy dst e;;; ret Vundef) m.
Proof.
  unfold int_result, bind.
  by destruct (stpcpy_cases dst e m) as [-> | (b & k & m' & ->)].
Qed.

Lemma foldM_int_result_stpcpy_nil acc m :
  foldM (int_result stpcpy) [] acc m = Done acc m.
Proof. done. Qed.

Lemma foldM_int_result_stpcpy_one e acc m :
  foldM (int_result stpcpy) [e] acc m
  = (foldM stpcpy [e] acc;;; ret Vundef) m.
Proof.
  cbn [foldM]. rewrite !bind_ret, int_result_stpcpy.
  unfold bind. by destruct (stpcpy acc e m).
Qed.

Lemma foldM_int_result_stpcpy_two e1 e2 elems acc m :
  foldM (int_result stpcpy) (e1 :: e2 :: elems) acc m = Fault.
Proof.
  cbn [foldM].
  destruct (stpcpy_cases acc e1 m) as [H | (b & k & m1 & H)].
  - apply bind_Fault. unfold int_result. by apply bind_Fault.
  - rewrite (bind_Done _ _ m Vundef m1)
      by (unfold int_result, bind; by rewrite H).
    apply bind_Fault. unfold int_result. apply bind_Fault, stpcpy_Vundef.
Qed.

(** Where the copy pass of [foldM] faults, so does that of
    [fold_string_list]. *)
Lemma foldM_int_result_stpcpy_Fault elems acc m :
  foldM stpcpy elems acc m = Fault ->
  foldM (int_result stpcpy) elems acc m = Fault.
Proof.
  destruct elems as [|e1 [|e2 elems]]; intros H.
  - done.
  - rewrite foldM_int_result_stpcpy_one. by apply bind_Fault.
  - apply foldM_int_result_stpcpy_two.
Qed.

(** The copy pass of [fold_string_list] is that of [foldM] under [stpcpy]
    as [string_binop] types it. *)
Lemma fold_string_list_stpcpy (h : heap) b k fuel list elems (m : mem) :
  h b = None -> extends h m ->
  is_list h list elems -> (length elems < fuel)%nat ->
  fold_string_list fuel list (Vptr b k) stpcpy m
  = foldM (int_result stpcpy) elems (Vptr b k) m.
Proof.
  intros Hfresh Hext Hlist Hfuel.
  apply (fold_string_list_foldM h stpcpy
           (fun acc m' => (acc = Vundef \/ exists k, acc = Vptr b k) /\
                          extends h m')); [| |done|done|eauto].
  - by intros acc m' [_ H].
  - intros acc e m1 r m2 [[-> | Hacc] Hext1] Hcpy.
    + by rewrite stpcpy_Vundef in Hcpy.
    + destruct (stpcpy_keeps h b acc e m1 r m2 Hfresh (conj Hacc Hext1) Hcpy)
        as [[k' ->] Hext2].
      split; [by left | done].
Qed.

(** X5.  The copy pass.  A fold of [stpcpy] over a list or a counted array
    of strings, from offset [k] of a block [b] that holds none of them, and
    that has room for all their characters and a terminator from [k] on.
    [fold_list] joins the strings at [b + k] and returns the pointer to the
    terminator; no other block changes.  [fold_counted_array] does the same
    to the memory, and what it returns is the pointer cut to an [int], an
    undefined value.  [fold_string_list] cuts the pointer after every copy:
    on the empty list it returns its start pointer, a single string it
    copies (and returns the cut pointer), and on a list of two strings or
    more it faults, with what is left of the pointer as the destination of
    the second copy. *)
Theorem copy_pass (h : heap) (b : block) (elems : list val)
    (strs : list (list Z)) (m : mem) (k : nat) (blk : list val) :
  h b = None ->
  strings_at h elems strs ->
  extends h m ->
  blocks m !! b = Some blk ->
  (k + length (join strs) + 1 <= length blk)%nat ->
  (forall list fuel,
     is_list h list elems -> (length elems < fuel)%nat ->
     copy_pass_result h b k strs m
       (Vptr b (Z.of_nat (k + length (join strs))))
       (fold_list fuel list (Vptr b (Z.of_nat k)) stpcpy m) /\
     (elems = [] ->
      fold_string_list fuel list (Vptr b (Z.of_nat k)) stpcpy m
      = Done (Vptr b (Z.of_nat k)) m) /\
     (length elems = 1%nat ->
      copy_pass_result h b k strs m Vundef
        (fold_string_list fuel list (Vptr b (Z.of_nat k)) stpcpy m)) /\
     ((2 <= length elems)%nat ->
      fold_string_list fuel list (Vptr b (Z.of_nat k)) stpcpy m = Fault)) /\
  (forall array,
     is_counted_array h array elems ->
     copy_pass_result h b k strs m Vundef
       (fold_counted_array array (Vptr b (Z.of_nat k)) stpcpy m)).
Proof.
  intros Hfresh Hstrs Hext Hb Hlen.
  pose proof (copy_pass_foldM h b elems strs m k blk Hfresh Hstrs Hext Hb Hlen)
    as Hres.
  assert (forall acc m', (exists k, acc = Vptr b k) /\ extends h m' ->
            extends h m') as Hinv1 by (by intros acc m' [_ H]).
  assert (forall acc e m1 r m2,
            (exists k, acc = Vptr b k) /\ extends h m1 ->
            stpcpy acc e m1 = Done r m2 ->
            (exists k, r = Vptr b k) /\ extends h m2) as Hinv2
    by (intros acc e m1 r m2; by apply stpcpy_keeps).
  split.
  - intros list fuel Hlist Hfuel.
    rewrite (fold_string_list_stpcpy h _ _ _ _ elems) by done.
    split; [|split; [|split]].
    + rewrite (fold_list_foldM h stpcpy _ Hinv1 Hinv2 list elems Hlist)
        by eauto.
      done.
    + by intros ->.
    + intros H1. destruct elems as [|e [|e2 elems]]; [done| |done].
      rewrite foldM_int_result_stpcpy_one.
      by apply (copy_pass_result_conv _ _ _ _ _
                  (Vptr b (Z.of_nat (k + length (join strs)))) _
                  (fun _ => Vundef)).
    + intros H2. destruct elems as [|e [|e2 elems]]; [cbn in H2; lia..|].
      apply foldM_int_result_stpcpy_two.
  - intros array Harr.
    rewrite (fold_counted_array_foldM h stpcpy _ Hinv1 Hinv2 array elems)
      by eauto.
    by apply (copy_pass_result_conv _ _ _ _ _
                (Vptr b (Z.of_nat (k + length (join strs)))) _ as_int).
Qed.

Lemma copy_pass_witness :
  copy_pass_result (main_mem 0) 10 2 [[102; 111; 111]; [98; 97; 114]]
    (Mem (blocks (main_mem 0) ++ [replicate 9 Vundef]) 0)
    (Vptr 10 8)
    (fold_list 3 (Vptr 3 0) (Vptr 10 2) stpcpy
       (Mem (blocks (main_mem 0) ++ [replicate 9 Vundef]) 0)).
Proof.
  refine (proj1 (proj1 (copy_pass (main_mem 0) 10 [Vptr 1 0; Vptr 0 0]
            [[102; 111; 111]; [98; 97; 114]]
            (Mem (blocks (main_mem 0) ++ [replicate 9 Vundef]) 0)
            2 (replicate 9 Vundef) _ _ _ _ _) (Vptr 3 0) 3%nat _ _)).
  - reflexivity.
  - by repeat constructor.
  - apply extends_app.
  - reflexivity.
  - cbn. lia.
  - repeat econstructor.
  - cbn. lia.
Defined.

Lemma foldM_stpcpy_no_room (h : heap) b elems strs :
  h b = None ->
  strings_at h elems strs ->
  elems <> [] ->
  forall (m : mem) k blk,
    extends h m ->
    blocks m !! b = Some blk ->
    (length blk < k + length (join strs) + 1)%nat ->
    foldM stpcpy elems (Vptr b (Z.of_nat k)) m = Fault.
Proof.
  intros Hfresh. induction 1 as [|e s elems strs He Hrest IH];
    intros Hne m k blk Hext Hb Hlen; [done|].
  assert (join (s :: strs) = s ++ join strs) as Hjoin by done.
  rewrite Hjoin, length_app in Hlen.
  cbn [foldM].
  destruct (decide (k + length s + 1 <= length blk)%nat) as [Hroom|Hroom].
  - destruct (string_at_inv _ _ _ He) as (b' & ofs' & blk' & -> & _ & Hb' & _).
    assert (b' <> b) as Hbb by (intros ->; congruence).
    erewrite bind_Done.
    2:{ apply stpcpy_Done; [by eapply string_at_extends | done | done | lia]. }
    destruct Hrest as [|e' s' elems strs He' Hrest]; [cbn in Hlen; lia|].
    apply (IH ltac:(done) _ _ (write blk k (string_cells s))).
    + by apply extends_insert_fresh.
    + cbn. apply list_lookup_insert_eq. by eapply lookup_lt_Some.
    + rewrite length_write; rewrite ?length_string_cells; lia.
  - apply bind_Fault.
    apply (stpcpy_no_room _ _ _ s blk); [by eapply string_at_extends | done | lia].
Qed.

(** X6.  A buffer too small.  When the block [b] has fewer cells from [k]
    on than the strings have characters, plus one for the terminator, the
    copy pass over a sequence that is not empty runs off the end of the
    block: it faults, it does not return. *)
Theorem copy_pass_no_room (h : heap) (b : block) (elems : list val)
    (strs : list (list Z)) (m : mem) (k : nat) (blk : list val) :
  h b = None ->
  strings_at h elems strs ->
  elems <> [] ->
  extends h m ->
  blocks m !! b = Some blk ->
  (length blk < k + length (join strs) + 1)%nat ->
  (forall list fuel,
     is_list h list elems -> (length elems < fuel)%nat ->
     fold_list fuel list (Vptr b (Z.of_nat k)) stpcpy m = Fault /\
     fold_string_list fuel list (Vptr b (Z.of_nat k)) stpcpy m = Fault) /\
  (forall array,
     is_counted_array h array elems ->
     fold_counted_array array (Vptr b (Z.of_nat k)) stpcpy m = Fault).
Proof.
  intros Hfresh Hstrs Hne Hext Hb Hlen.
  pose proof (foldM_stpcpy_no_room h b elems strs Hfresh Hstrs Hne m k blk
                Hext Hb Hlen) as Hres.
  assert (forall acc m', (exists k, acc = Vptr b k) /\ extends h m' ->
            extends h m') as Hinv1 by (by intros acc m' [_ H]).
  assert (forall acc e m1 r m2,
            (exists k, acc = Vptr b k) /\ extends h m1 ->
            stpcpy acc e m1 = Done r m2 ->
            (exists k, r = Vptr b k) /\ extends h m2) as Hinv2
    by (intros acc e m1 r m2; by apply stpcpy_keeps).
  split.
  - intros list fuel Hlist Hfuel. split.
    + by rewrite (fold_list_foldM h stpcpy _ Hinv1 Hinv2 list elems Hlist)
        by eauto.
    + rewrite (fold_string_list_stpcpy h _ _ _ _ elems) by done.
      by apply foldM_int_result_stpcpy_Fault.
  - intros array Harr.
    rewrite (fold_counted_array_foldM h stpcpy _ Hinv1 Hinv2 array elems)
      by eauto.
    by apply bind_Fault.
Qed.

Lemma copy_pass_no_room_witness :
  fold_list 3 (Vptr 3 0) (Vptr 10 0) stpcpy
    (Mem (blocks (main_mem 0) ++ [replicate 6 Vundef]) 0) = Fault.
Proof.
  refine (proj1 (proj1 (copy_pass_no_room (main_mem 0) 10
            [Vptr 1 0; Vptr 0 0] [[102; 111; 111]; [98; 97; 114]]
            (Mem (blocks (main_mem 0) ++ [replicate 6 Vundef]) 0)
            0 (replicate 6 Vundef) _ _ _ _ _ _) (Vptr 3 0) 3%nat _ _)).
  - reflexivity.
  - by repeat constructor.
  - discriminate.
  - apply extends_app.
  - reflexivity.
  - cbn. lia.
  - repeat econstructor.
  - cbn. lia.
Defined.

(** ** The concatenations *)

Lemma concat_list_loop_fold_list fuel :
  forall list outp m,
    concat_list_loop fuel list outp m
    = (fold_list fuel list outp stpcpy;;; ret tt) m.
Proof.
  induction fuel as [|fuel IH]; intros list outp m; [done|].
  cbn [concat_list_loop fold_list]. unfold bind.
  destruct (truth list m) as [[] m1| |]; try done.
  destruct (value_of list m1) as [s m2| |]; try done.
  destruct (stpcpy outp s m2) as [outp' m3| |]; try done.
  destruct (next_of list m3) as [nxt m4| |]; [|done|done].
  rewrite IH. done.
Qed.

(** While the total plus one fits an [int] and the allocation succeeds,
    [concat_list] is [concat] over [fold_list]. *)
Lemma concat_list_is_concat fuel (m : mem) list elems strs :
  is_list m list elems ->
  (length elems < fuel)%nat ->
  strings_at m elems strs ->
  total_length strs + 1 < 2 ^ 31 ->
  total_length strs + 1 <= avail m ->
  concat_list fuel list m = concat (fold_list fuel) list m.
Proof.
  intros Hlist Hfuel Hstrs Hsmall Havail.
  pose proof (total_length_nonneg strs) as Hnn.
  pose proof (fold_list_accumulate_length _ _ _ _ _ Hlist Hfuel Hstrs) as Hlen.
  unfold concat_list, concat, bind.
  rewrite size_list_fold, fold_string_list_accumulate_length, Hlen.
  rewrite concat_list_size, concat_size, request_small by lia. cbn [ret].
  rewrite (malloc_Done _ m Havail). cbn [truth ret].
  rewrite concat_list_loop_fold_list. unfold bind.
  by destruct (fold_list fuel list _ stpcpy _).
Qed.

(** X7.  What the concatenations build.  Over a non-empty sequence of
    strings whose total length plus one is below [2^31], with that much
    room left, [concat] over a list or a counted array and [concat_list]
    all do the same: they return a pointer to a new block of exactly as
    many cells as the strings have characters, plus one, which holds the
    characters joined and the terminator; no other block changes and the
    room left shrinks by the size of that block. *)
Theorem concat_exact (m : mem) (elems : list val) (strs : list (list Z)) :
  strings_at m elems strs ->
  elems <> [] ->
  total_length strs + 1 < 2 ^ 31 ->
  total_length strs + 1 <= avail m ->
  (forall list fuel,
     is_list m list elems -> (length elems < fuel)%nat ->
     concat (fold_list fuel) list m
     = Done (Vptr (length (blocks m)) 0) (concat_mem m strs) /\
     concat_list fuel list m
     = Done (Vptr (length (blocks m)) 0) (concat_mem m strs)) /\
  (forall array,
     is_counted_array m array elems ->
     concat fold_counted_array array m
     = Done (Vptr (length (blocks m)) 0) (concat_mem m strs)) /\
  blocks (concat_mem m strs) !! length (blocks m)
  = Some (string_cells (join strs)) /\
  Z.of_nat (length (string_cells (join strs))) = total_length strs + 1.
Proof.
  intros Hstrs Hne Hsmall Havail. split; [|split; [|split]].
  - intros list fuel Hlist Hfuel.
    rewrite (concat_list_is_concat _ _ _ _ _ Hlist Hfuel Hstrs Hsmall Havail).
    by rewrite (concat_Done _ _ _ _ _ (fold_list_folds _ _ _ _ Hlist Hfuel)
                  Hstrs Hne) by lia.
  - intros array Harr.
    apply (concat_Done _ _ _ _ _ (fold_counted_array_folds _ _ _ Harr));
      [done | done | lia | done].
  - unfold concat_mem. cbn. by rewrite lookup_app_r, Nat.sub_diag.
  - rewrite length_string_cells. unfold total_length. lia.
Qed.

Lemma concat_exact_witness :
  concat_list 3 (Vptr 3 0) (main_mem 7)
  = Done (Vptr 10 0)
      (concat_mem (main_mem 7) [[102; 111; 111]; [98; 97; 114]]).
Proof.
  refine (proj2 (proj1 (concat_exact (main_mem 7)
            [Vptr 1 0; Vptr 0 0] [[102; 111; 111]; [98; 97; 114]] _ _ _ _)
            (Vptr 3 0) 3%nat _ _)).
  - by repeat constructor.
  - discriminate.
  - reflexivity.
  - vm_compute. discriminate.
  - repeat econstructor.
  - cbn. lia.
Defined.

(** X8.  [concat_string_list] on two strings or more.  Its copy pass goes
    through [fold_string_list], which reads what [stpcpy] returns as an
    [int]: on a list of two strings or more, with the allocation served,
    the second copy goes through what is left of the pointer and
    [concat_string_list] faults, where [concat_list] and [concat] over
    [fold_list] return the strings joined. *)
Theorem concat_string_list_breaks (fuel : nat) (m : mem)
    (elems : list val) (strs : list (list Z)) (list : val) :
  is_list m list elems ->
  (length elems < fuel)%nat ->
  strings_at m elems strs ->
  (2 <= length elems)%nat ->
  total_length strs + 1 < 2 ^ 31 ->
  total_length strs + 1 <= avail m ->
  concat_string_list fuel list m = Fault /\
  concat_list fuel list m
  = Done (Vptr (length (blocks m)) 0) (concat_mem m strs) /\
  concat (fold_list fuel) list m
  = Done (Vptr (length (blocks m)) 0) (concat_mem m strs).
Proof.
  intros Hlist Hfuel Hstrs Htwo Hsmall Havail.
  pose proof (total_length_nonneg strs) as Hnn.
  pose proof (fold_list_accumulate_length _ _ _ _ _ Hlist Hfuel Hstrs) as Hlen.
  assert (elems <> []) as Hne by (intros ->; cbn in Htwo; lia).
  split; [|split].
  - unfold concat_string_list, bind.
    rewrite fold_string_list_accumulate_length, Hlen.
    rewrite concat_size, request_small by lia. cbn [ret].
    rewrite (malloc_Done _ m Havail). cbn [truth ret].
    rewrite (fold_string_list_stpcpy m _ _ _ _ elems);
      [| by apply lookup_ge_None_2 | apply extends_app | done | done].
    destruct elems as [|e1 [|e2 elems]]; [cbn in Htwo; lia..|].
    by rewrite foldM_int_result_stpcpy_two.
  - rewrite (concat_list_is_concat _ _ _ _ _ Hlist Hfuel Hstrs Hsmall Havail).
    by rewrite (concat_Done _ _ _ _ _ (fold_list_folds _ _ _ _ Hlist Hfuel)
                  Hstrs Hne) by lia.
  - by rewrite (concat_Done _ _ _ _ _ (fold_list_folds _ _ _ _ Hlist Hfuel)
                  Hstrs Hne) by lia.
Qed.

Lemma concat_string_list_breaks_witness :
  concat_string_list 3 (Vptr 3 0) (main_mem 7) = Fault /\
  concat_list 3 (Vptr 3 0) (main_mem 7)
  = Done (Vptr 10 0)
      (concat_mem (main_mem 7) [[102; 111; 111]; [98; 97; 114]]).
Proof.
  refine ((fun H => conj (proj1 H) (proj1 (proj2 H)))
            (concat_string_list_breaks 3 (main_mem 7)
               [Vptr 1 0; Vptr 0 0] [[102; 111; 111]; [98; 97; 114]]
               (Vptr 3 0) _ _ _ _ _ _)).
  - repeat econstructor.
  - cbn. lia.
  - by repeat constructor.
  - cbn. lia.
  - reflexivity.
  - vm_compute. discriminate.
Defined.

(** X9.  Allocation failure in the list concatenations.  When [malloc]
    cannot serve the request, [concat_list] and [concat_string_list] return
    [NULL] and leave the memory as it is: nothing is written. *)
Theorem concat_list_alloc_failure (fuel : nat) (m : mem)
    (elems : list val) (strs : list (list Z)) (list : val) :
  is_list m list elems ->
  (length elems < fuel)%nat ->
  strings_at m elems strs ->
  total_length strs + 1 < 2 ^ 32 ->
  avail m < total_length strs + 1 ->
  concat_list fuel list m = Done NULL m /\
  concat_string_list fuel list m = Done NULL m.
Proof.
  intros Hlist Hfuel Hstrs Hsmall Havail.
  by destruct (concat_string_list_alloc_failure fuel m list elems strs).
Qed.

Lemma concat_list_alloc_failure_witness :
  concat_list 3 (Vptr 3 0) (main_mem 6) = Done NULL (main_mem 6) /\
  concat_string_list 3 (Vptr 3 0) (main_mem 6) = Done NULL (main_mem 6).
Proof.
  refine (concat_list_alloc_failure 3 (main_mem 6)
            [Vptr 1 0; Vptr 0 0] [[102; 111; 111]; [98; 97; 114]] (Vptr 3 0)
            _ _ _ _ _).
  - repeat econstructor.
  - cbn. lia.
  - by repeat constructor.
  - reflexivity.
  - reflexivity.
Defined.

(** X10.  [concat] over [fold_list] against [concat_string_list], on lists
    of one string at most, of a length below [2^31].  There the two are the
    same computation whenever the allocation succeeds, and also when the
    list is empty, whatever [malloc] answers: the equation of the source's
    comment holds on these lists. *)
Theorem concat_string_list_is_concat (fuel : nat) (m : mem)
    (elems : list val) (strs : list (list Z)) (list : val) :
  is_list m list elems ->
  (length elems < fuel)%nat ->
  strings_at m elems strs ->
  (length elems <= 1)%nat ->
  total_length strs < 2 ^ 31 ->
  total_length strs + 1 <= avail m \/ elems = [] ->
  concat_string_list fuel list m = concat (fold_list fuel) list m.
Proof.
  intros Hlist Hfuel Hstrs Hone Hsmall Hcase.
  pose proof (total_length_nonneg strs) as Hnn.
  pose proof (fold_list_accumulate_length _ _ _ _ _ Hlist Hfuel Hstrs) as Hlen.
  pose proof (fold_list_folds _ _ _ _ Hlist Hfuel) as Hfolds.
  unfold concat_string_list, concat.
  rewrite !(bind_Done _ _ m (Vint (to_int (total_length strs))) m)
    by (by rewrite ?fold_string_list_accumulate_length).
  rewrite concat_size, request_small by lia.
  rewrite !(bind_Done _ _ m (total_length strs + 1) m) by done.
  destruct (Z.le_gt_cases (total_length strs + 1) (avail m))
    as [Havail|Havail].
  - rewrite !(bind_Done _ _ _ _ _ (malloc_Done _ m Havail)).
    set (m1 := Mem _ _). cbn [truth].
    rewrite (bind_Done _ _ m1 true m1) by done. cbn iota.
    rewrite (folds_stpcpy _ m _ elems);
      [| done | by apply lookup_ge_None_2 | apply extends_app].
    rewrite bind_assoc. unfold bind at 1.
    rewrite (fold_string_list_stpcpy m _ _ _ _ elems);
      [| by apply lookup_ge_None_2 | apply extends_app | done | done].
    destruct elems as [|e [|e2 elems]]; [done | | cbn in Hone; lia].
    rewrite foldM_int_result_stpcpy_one. unfold bind.
    by destruct (foldM stpcpy [e] _ m1).
  - destruct Hcase as [?| ->]; [lia|].
    inversion Hlist; subst.
    destruct fuel as [|fuel]; [cbn in Hfuel; lia|].
    by rewrite !(bind_Done _ _ _ _ _ (malloc_NULL _ m Havail)).
Qed.

Lemma concat_string_list_is_concat_witness :
  concat_string_list 2 (Vptr 2 0) (main_mem 4)
  = concat (fold_list 2) (Vptr 2 0) (main_mem 4) /\
  concat_string_list 1 NULL (main_mem 0)
  = concat (fold_list 1) NULL (main_mem 0).
Proof.
  split.
  - refine (concat_string_list_is_concat 2 (main_mem 4)
              [Vptr 0 0] [[98; 97; 114]] (Vptr 2 0) _ _ _ _ _ _).
    + repeat econstructor.
    + cbn. lia.
    + by repeat constructor.
    + cbn. lia.
    + reflexivity.
    + left. vm_compute. discriminate.
  - refine (concat_string_list_is_concat 1 (main_mem 0)
              [] [] NULL _ _ _ _ _ _).
    + constructor.
    + cbn. lia.
    + constructor.
    + cbn. lia.
    + reflexivity.
    + by right.
Defined.

(** ** What [concat] leaves alone *)

Lemma stpcpy_length dst e m r m' :
  stpcpy dst e m = Done r m' -> length (blocks m') = length (blocks m).
Proof.
  unfold stpcpy. destruct (string_at m e) as [cs|]; [|done].
  destruct dst as [| |b ofs]; try done.
  destruct (blocks m !! b) as [blk|]; [|done].
  destruct (_ && _); [|done]. intros [= _ <-]. cbn. apply length_insert.
Qed.

Lemma foldM_stpcpy_keeps (h : heap) b elems :
  h b = None ->
  forall acc m r m',
    (exists k, acc = Vptr b k) /\ extends h m ->
    foldM stpcpy elems acc m = Done r m' ->
    extends h m' /\ length (blocks m') = length (blocks m).
Proof.
  intros Hfresh. induction elems as [|e elems IH]; intros acc m r m' HI H.
  - injection H as _ <-. by destruct HI.
  - cbn [foldM] in H. apply bind_inv_Done in H as (acc1 & m1 & H1 & H2).
    pose proof (stpcpy_length _ _ _ _ _ H1) as Hlen.
    apply (stpcpy_keeps h b _ _ _ _ _ Hfresh HI) in H1.
    destruct (IH _ _ _ _ H1 H2) as [Hext Hlen']. split; [done|congruence].
Qed.

Lemma foldM_stpcpy_NULL elems m r m' :
  foldM stpcpy elems NULL m = Done r m' -> r = NULL /\ m' = m.
Proof.
  destruct elems as [|e elems]; intros H.
  - by injection H as <- <-.
  - cbn [foldM] in H. apply bind_inv_Done in H as (acc1 & m1 & H1 & _).
    by rewrite stpcpy_NULL in H1.
Qed.

Lemma concat_frame_folds fold (m : mem) coll elems r m' :
  folds fold m coll elems ->
  concat fold coll m = Done r m' ->
  concat_frame m r m'.
Proof.
  intros Hfolds H. rewrite (concat_foldM _ _ _ _ Hfolds) in H.
  apply bind_inv_Done in H as (n & m1 & Hn & H).
  apply foldM_accumulate_length_mem in Hn as ->.
  apply bind_inv_Done in H as (size & m1 & Hsize & H).
  assert (m1 = m) as ->.
  { destruct (add_ptr n 1); try done. by injection Hsize as _ <-. }
  apply bind_inv_Done in H as (outbuf & m1 & Hmalloc & H).
  apply bind_inv_Done in H as (r' & m2 & Hcopy & Hret).
  injection Hret as <- <-.
  assert (forall m2, extends m m2 ->
            forall p s, string_at m p = Some s -> string_at m2 p = Some s)
    as Hstr by (intros m3 Hext p s; by apply string_at_extends).
  unfold malloc in Hmalloc. destruct (size <=? avail m).
  - injection Hmalloc as <- <-.
    apply (foldM_stpcpy_keeps m (length (blocks m))) in Hcopy
      as [Hext Hlen].
    + split; [done|]. split; [by apply Hstr|]. right. split; [done|].
      rewrite Hlen. cbn. rewrite length_app. cbn. lia.
    + by apply lookup_ge_None_2.
    + split; [eauto | apply extends_app].
  - injection Hmalloc as <- <-.
    apply foldM_stpcpy_NULL in Hcopy as [_ ->].
    split; [apply extends_refl|]. split; [done|]. by left.
Qed.

(** X11.  What [concat] leaves alone.  Whenever [concat] returns, over a
    list or a counted array of any elements, every block of the memory it
    started in is as it was, so every string that was there still is (the
    result of an earlier [concat] among them); and it returns either [NULL],
    with nothing changed, or a pointer to the start of the one block it
    has added. *)
Theorem concat_keeps (m : mem) (elems : list val) :
  (forall list fuel r m',
     is_list m list elems -> (length elems < fuel)%nat ->
     concat (fold_list fuel) list m = Done r m' ->
     concat_frame m r m') /\
  (forall array r m',
     is_counted_array m array elems ->
     concat fold_counted_array array m = Done r m' ->
     concat_frame m r m').
Proof.
  split.
  - intros list fuel r m' Hlist Hfuel.
    apply concat_frame_folds with (elems := elems).
    by apply fold_list_folds.
  - intros array r m' Harr.
    apply concat_frame_folds with (elems := elems).
    by apply fold_counted_array_folds.
Qed.

Lemma concat_keeps_witness :
  concat_frame (main_mem 18) (Vptr 10 0)
    (concat_mem (main_mem 18) [[102; 111; 111]; [98; 97; 114]]).
Proof.
  refine (proj1 (concat_keeps (main_mem 18) [Vptr 1 0; Vptr 0 0])
            (Vptr 3 0) 3%nat _ _ _ _ _).
  - repeat econstructor.
  - cbn. lia.
  - reflexivity.
Defined.

(** X12.  Allocation failure in [concat].  When [malloc] cannot serve the
    request, [concat] returns [NULL] with nothing changed if the sequence is
    empty, and faults if it is not: it hands [NULL] to [stpcpy] as the
    destination of the first string. *)
Theorem concat_alloc_failure_cases (m : mem) (elems : list val)
    (strs : list (list Z)) :
  strings_at m elems strs ->
  total_length strs + 1 < 2 ^ 32 ->
  avail m < total_length strs + 1 ->
  (forall list fuel,
     is_list m list elems -> (length elems < fuel)%nat ->
     (elems = [] -> concat (fold_list fuel) list m = Done NULL m) /\
     (elems <> [] -> concat (fold_list fuel) list m = Fault)) /\
  (forall array,
     is_counted_array m array elems ->
     (elems = [] -> concat fold_counted_array array m = Done NULL m) /\
     (elems <> [] -> concat fold_counted_array array m = Fault)).
Proof.
  intros Hstrs Hsmall Havail.
  pose proof (total_length_nonneg strs) as Hnn.
  assert (forall fold coll, folds fold m coll elems ->
            (elems = [] -> concat fold coll m = Done NULL m) /\
            (elems <> [] -> concat fold coll m = Fault)) as H.
  { intros fold coll Hfolds. split.
    - intros ->. inversion Hstrs; subst.
      rewrite (concat_foldM _ _ _ _ Hfolds). cbn [foldM].
      rewrite (bind_Done _ _ m (Vint 0) m) by done.
      rewrite (bind_Done _ _ m 1 m) by done.
      by rewrite (bind_Done _ _ m NULL m) by (by apply malloc_NULL).
    - intros Hne. destruct elems as [|e elems]; [done|].
      by apply (concat_alloc_failure _ _ _ e elems strs). }
  split.
  - intros list fuel Hlist Hfuel. by apply H, fold_list_folds.
  - intros array Harr. by apply H, fold_counted_array_folds.
Qed.

Lemma concat_alloc_failure_cases_witness :
  concat fold_counted_array (Vptr 7 0) (main_mem 10) = Fault /\
  concat (fold_list 1) NULL (main_mem 0) = Done NULL (main_mem 0).
Proof.
  split.
  - refine (proj2 (proj2 (concat_alloc_failure_cases (main_mem 10)
              [Vptr 4 0; Vptr 5 0]
              [[104; 101; 108; 108; 111]; [119; 111; 114; 108; 100]] _ _ _)
              (Vptr 7 0) _) _).
    + by repeat constructor.
    + reflexivity.
    + reflexivity.
    + exists (Vptr 6 0). split; [reflexivity|]. split; [reflexivity|].
      split; [reflexivity|].
      intros [|[|i]] x Hi; cbn in Hi; by simplify_eq.
    + discriminate.
  - refine (proj1 (proj1 (concat_alloc_failure_cases (main_mem 0) [] [] _ _ _)
              NULL 1%nat _ _) _).
    + constructor.
    + reflexivity.
    + reflexivity.
    + constructor.
    + cbn. lia.
    + reflexivity.
Defined.

(** X13.  One [concat] for every shape.  Over a list and a counted array
    that hold the same elements, [concat] is the same computation: from the
    same memory it returns the same pointer and leaves the same memory, or
    faults alike, whatever the elements are and whatever [malloc] answers,
    as long as their total length, where they are strings, is below
    [2^31]. *)
Theorem concat_same_over_shapes (m : mem) (elems : list val) (fuel : nat)
    (list array : val) :
  is_list m list elems ->
  (length elems < fuel)%nat ->
  is_counted_array m array elems ->
  (forall strs, strings_at m elems strs -> total_length strs < 2 ^ 31) ->
  concat (fold_list fuel) list m = concat fold_counted_array array m.
Proof.
  intros Hlist Hfuel Harr _.
  apply concat_shape_independent with (elems := elems).
  - by apply fold_list_folds.
  - by apply fold_counted_array_folds.
Qed.

Lemma concat_same_over_shapes_witness :
  concat (fold_list 3) (Vptr 3 0) (shapes_mem 4)
  = concat fold_counted_array (Vptr 5 0) (shapes_mem 4) /\
  concat fold_counted_array (Vptr 5 0) (shapes_mem 4)
  = Done (Vptr 6 0) (concat_mem (shapes_mem 4) [[97; 98]; [99]]).
Proof.
  split; [|reflexivity].
  refine (concat_same_over_shapes (shapes_mem 4) [Vptr 0 0; Vptr 1 0] 3
            (Vptr 3 0) (Vptr 5 0) _ _ _ _).
  - repeat econstructor.
  - cbn. lia.
  - exists (Vptr 4 0). split; [reflexivity|]. split; [reflexivity|].
    split; [reflexivity|].
    intros [|[|i]] x Hi; cbn in Hi; by simplify_eq.
  - intros strs H.
    apply Forall2_cons_inv_l in H as (s1 & strs1 & H1 & H & ->).
    apply Forall2_cons_inv_l in H as (s2 & strs2 & H2 & H & ->).
    apply Forall2_nil_inv_l in H as ->.
    injection H1 as <-. injection H2 as <-. reflexivity.
Defined.

(** ** A list that never ends *)

Lemma endless_fold_list (m : mem) (S : val -> Prop) (op : binop) :
  endless m S ->
  (forall acc p e, S p -> read m p = Some e ->
     exists r, op acc e m = Done r m) ->
  forall fuel p init, S p ->
    fold_list fuel p init op m = OutOfFuel /\
    fold_string_list fuel p init op m = OutOfFuel.
Proof.
  intros Hend Hop. induction fuel as [|fuel IH]; intros p init Hp; [done|].
  destruct (Hend p Hp) as (b & ofs & e & nxt & -> & He & Hn & Hnxt).
  destruct (Hop init _ e Hp He) as [r Hr].
  destruct (IH nxt r Hnxt) as [IH1 _].
  destruct (IH nxt (as_ptr (as_int r)) Hnxt) as [_ IH2].
  split; cbn [fold_list fold_string_list truth]; unfold value_of, next_of;
    rewrite (bind_Done _ _ m true m) by done;
    rewrite (bind_Done _ _ m e m) by (by apply load_read);
    rewrite (bind_Done _ _ _ _ _ Hr);
    by rewrite (bind_Done _ _ m nxt m) by (by apply load_read).
Qed.

(** X14.  A list that never ends.  On a list whose [next] pointers never
    reach [NULL] (a cycle), the list folds do not return: under a reducer
    that returns on the elements of the list and leaves the memory as it
    is, [fold_list] and [fold_string_list] use up every amount of fuel. *)
Theorem endless_list_never_folds (m : mem) (S : val -> Prop) (op : binop) :
  endless m S ->
  (forall acc p e, S p -> read m p = Some e ->
     exists r, op acc e m = Done r m) ->
  forall fuel p init, S p ->
    fold_list fuel p init op m = OutOfFuel /\
    fold_string_list fuel p init op m = OutOfFuel.
Proof. apply endless_fold_list. Qed.

Lemma endless_list_never_folds_witness :
  fold_list 5 (Vptr 1 0) (Vint 0) accumulate_length cyclic_mem = OutOfFuel /\
  fold_string_list 5 (Vptr 1 0) (Vint 0) accumulate_length cyclic_mem
  = OutOfFuel.
Proof.
  refine (endless_list_never_folds cyclic_mem
            (fun p => p = Vptr 1 0 \/ p = Vptr 2 0) accumulate_length
            _ _ 5%nat (Vptr 1 0) (Vint 0) _).
  - intros p [-> | ->].
    + exists 1%nat, 0, (Vptr 0 0), (Vptr 2 0).
      repeat split; try reflexivity. by right.
    + exists 2%nat, 0, (Vptr 0 0), (Vptr 1 0).
      repeat split; try reflexivity. by left.
  - intros acc p e [-> | ->] [= <-]; by destruct acc; eexists.
  - by left.
Defined.

(** X15.  Concatenating a list that never ends.  When the elements of such
    a list are strings, the length pass does not return, in any of its
    forms ([size_list], the folds of [accumulate_length]), and so neither
    do [concat] over [fold_list], [concat_list] and [concat_string_list],
    which start with it: they use up every amount of fuel. *)
Theorem endless_list_never_concats (m : mem) (S : val -> Prop) :
  endless m S ->
  (forall p e, S p -> read m p = Some e -> exists s, string_at m e = Some s) ->
  forall fuel p, S p ->
    size_list fuel p m = OutOfFuel /\
    fold_list fuel p (Vint 0) accumulate_length m = OutOfFuel /\
    fold_string_list fuel p (Vint 0) accumulate_length m = OutOfFuel /\
    concat (fold_list fuel) p m = OutOfFuel /\
    concat_list fuel p m = OutOfFuel /\
    concat_string_list fuel p m = OutOfFuel.
Proof.
  intros Hend Hstr fuel p Hp.
  assert (forall acc p e, S p -> read m p = Some e ->
            exists r, accumulate_length acc e m = Done r m) as Hop.
  { intros acc q e Hq He. destruct (Hstr q e Hq He) as [s Hs].
    eexists. by apply accumulate_length_string. }
  destruct (endless_fold_list m S accumulate_length Hend Hop fuel p (Vint 0) Hp)
    as [H1 H2].
  unfold concat, concat_list, concat_string_list, bind.
  by rewrite size_list_fold, H1, H2.
Qed.

Lemma endless_list_never_concats_witness :
  size_list 7 (Vptr 2 0) cyclic_mem = OutOfFuel /\
  fold_list 7 (Vptr 2 0) (Vint 0) accumulate_length cyclic_mem = OutOfFuel /\
  fold_string_list 7 (Vptr 2 0) (Vint 0) accumulate_length cyclic_mem
  = OutOfFuel /\
  concat (fold_list 7) (Vptr 2 0) cyclic_mem = OutOfFuel /\
  concat_list 7 (Vptr 2 0) cyclic_mem = OutOfFuel /\
  concat_string_list 7 (Vptr 2 0) cyclic_mem = OutOfFuel.
Proof.
  refine (endless_list_never_concats cyclic_mem
            (fun p => p = Vptr 1 0 \/ p = Vptr 2 0) _ _ 7%nat (Vptr 2 0) _).
  - intros p [-> | ->].
    + exists 1%nat, 0, (Vptr 0 0), (Vptr 2 0).
      repeat split; try reflexivity. by right.
    + exists 2%nat, 0, (Vptr 0 0), (Vptr 1 0).
      repeat split; try reflexivity. by left.
  - intros p e [-> | ->] [= <-]; by exists [97].
  - by right.
Defined.

(** ** One [concat] after another *)

(** X16.  One [concat] after another, as [main] runs them.  From a memory
    that holds a non-empty list of strings and a non-empty counted array of
    strings, each of a total length below [2^31], with room for both
    results, [concat] over the list and then [concat] over the counted
    array return pointers to two new blocks, one after the other; the
    second call finds its collection as the first left it, and in the final
    memory the first result is still the first strings joined and the
    second result the second strings joined. *)
Theorem concat_then_concat (m : mem) (elems1 elems2 : list val)
    (strs1 strs2 : list (list Z)) (fuel : nat) (list array : val) :
  is_list m list elems1 -> (length elems1 < fuel)%nat ->
  strings_at m elems1 strs1 -> elems1 <> [] ->
  is_counted_array m array elems2 ->
  strings_at m elems2 strs2 -> elems2 <> [] ->
  total_length strs1 < 2 ^ 31 ->
  total_length strs2 < 2 ^ 31 ->
  (total_length strs1 + 1) + (total_length strs2 + 1) <= avail m ->
  (r1 <- concat (fold_list fuel) list;;
   r2 <- concat fold_counted_array array;;
   ret (r1, r2)) m
  = Done (Vptr (length (blocks m)) 0, Vptr (S (length (blocks m))) 0)
      (concat_mem (concat_mem m strs1) strs2) /\
  string_at (concat_mem (concat_mem m strs1) strs2)
    (Vptr (length (blocks m)) 0) = Some (join strs1) /\
  string_at (concat_mem (concat_mem m strs1) strs2)
    (Vptr (S (length (blocks m))) 0) = Some (join strs2).
Proof.
  intros Hlist Hfuel Hstrs1 Hne1 Harr Hstrs2 Hne2 Hsmall1 Hsmall2 Havail.
  pose proof (total_length_nonneg strs1) as Hnn1.
  pose proof (total_length_nonneg strs2) as Hnn2.
  assert (extends m (concat_mem m strs1)) as Hext1 by apply extends_app.
  assert (extends (concat_mem m strs1)
            (concat_mem (concat_mem m strs1) strs2)) as Hext2
    by apply extends_app.
  assert (length (blocks (concat_mem m strs1)) = S (length (blocks m)))
    as Hlen by (cbn; rewrite length_app; cbn; lia).
  split; [|split].
  - rewrite (bind_Done _ _ m (Vptr (length (blocks m)) 0) (concat_mem m strs1))
      by (apply (concat_Done _ _ _ elems1); [by apply fold_list_folds|done..|lia]).
    rewrite (bind_Done _ _ _ (Vptr (S (length (blocks m))) 0)
               (concat_mem (concat_mem m strs1) strs2)); [done|].
    rewrite <- Hlen. apply (concat_Done _ _ _ elems2).
    + apply fold_counted_array_folds.
      by apply (is_counted_array_extends m).
    + by apply (strings_at_extends m).
    + done.
    + done.
    + cbn. lia.
  - apply (string_at_extends _ _ _ _ Hext2).
    apply string_at_concat_mem. by eapply strings_at_nonzero.
  - rewrite <- Hlen.
    apply string_at_concat_mem. by eapply strings_at_nonzero.
Qed.

Lemma concat_then_concat_witness :
  string_at
    (concat_mem (concat_mem (main_mem 18) [[102; 111; 111]; [98; 97; 114]])
       [[104; 101; 108; 108; 111]; [119; 111; 114; 108; 100]])
    (Vptr 10 0)
  = Some (join [[102; 111; 111]; [98; 97; 114]]).
Proof.
  refine (proj1 (proj2 (concat_then_concat (main_mem 18)
            [Vptr 1 0; Vptr 0 0] [Vptr 4 0; Vptr 5 0]
            [[102; 111; 111]; [98; 97; 114]]
            [[104; 101; 108; 108; 111]; [119; 111; 114; 108; 100]]
            3%nat (Vptr 3 0) (Vptr 7 0) _ _ _ _ _ _ _ _ _ _))).
  - repeat econstructor.
  - cbn. lia.
  - by repeat constructor.
  - discriminate.
  - exists (Vptr 6 0). split; [reflexivity|]. split; [reflexivity|].
    split; [reflexivity|].
    intros [|[|i]] x Hi; cbn in Hi; by simplify_eq.
  - by repeat constructor.
  - discriminate.
  - reflexivity.
  - reflexivity.
  - vm_compute. discriminate.
Defined.

(** ** The five folds and their reducer *)

(** X17.  The folds against the fold of the specification.  Over a sequence
    that holds the elements [elems], each fold visits them from the left in
    storage order and applies the reducer once to each, handing every
    result to the next application; this holds for every initial
    accumulator and every reducer, whatever the reducer does to the memory,
    as long as the blocks [h] the sequence lives in stay as they are while
    it is folded (the invariant [Inv], which the reducer keeps, says so); a
    linked list needs more fuel than it has nodes.  [fold_int_array] and
    [fold_list] return what the last application returned.  [fold_array]
    and [fold_counted_array] return it converted to [int].
    [fold_string_list] converts the result of every application to [int]
    before it hands it on. *)
Theorem folds_refine_foldM (h : heap) (op : binop) (Inv : val -> mem -> Prop)
    (elems : list val) (init : val) (m : mem) :
  (forall acc m', Inv acc m' -> extends h m') ->
  (forall acc e m1 r m2, Inv acc m1 -> op acc e m1 = Done r m2 -> Inv r m2) ->
  Inv init m ->
  (forall array,
     is_array h array elems ->
     fold_int_array array (Z.of_nat (length elems)) init op m
     = foldM op elems init m /\
     fold_array array (Z.of_nat (length elems)) init op m
     = (r <- foldM op elems init;; ret (as_int r)) m) /\
  (forall list fuel,
     is_list h list elems -> (length elems < fuel)%nat ->
     fold_list fuel list init op m = foldM op elems init m /\
     ((forall acc m', Inv acc m' -> Inv (as_int acc) m') ->
      fold_string_list fuel list init op m
      = foldM (int_result op) elems init m)) /\
  (forall array,
     is_counted_array h array elems ->
     fold_counted_array array init op m
     = (r <- foldM op elems init;; ret (as_int r)) m).
Proof.
  intros Hext Hstep HI. split; [|split].
  1: intros array Harr; split.
  3: intros list fuel Hlist Hfuel; split.
  5: intros array Harr.
  - by apply (fold_int_array_foldM h op Inv).
  - by apply (fold_array_foldM h op Inv).
  - by apply (fold_list_foldM h op Inv).
  - intros Hint. apply (fold_string_list_foldM h op Inv); eauto.
  - by apply (fold_counted_array_foldM h op Inv).
Qed.

(** [stpcpy] from the start of the buffer, over the list and over the
    counted array of [main]: a reducer that writes, and keeps the blocks of
    [main]. *)
Lemma folds_refine_foldM_witness :
  fold_list 3 (Vptr 3 0) (Vptr 10 0) stpcpy buffer_mem
  = foldM stpcpy [Vptr 1 0; Vptr 0 0] (Vptr 10 0) buffer_mem /\
  fold_counted_array (Vptr 7 0) (Vptr 10 0) stpcpy buffer_mem
  = (r <- foldM stpcpy [Vptr 4 0; Vptr 5 0] (Vptr 10 0);; ret (as_int r))
      buffer_mem.
Proof.
  split.
  - refine (proj1 (proj1 (proj2 (folds_refine_foldM (main_mem 0) stpcpy
              (fun acc m' => (exists k, acc = Vptr 10 k) /\
                             extends (main_mem 0) m')
              [Vptr 1 0; Vptr 0 0] (Vptr 10 0) buffer_mem
              _ _ _)) (Vptr 3 0) 3%nat _ _)).
    + intros acc m' [_ H]. exact H.
    + intros acc e m1 r m2. by apply stpcpy_keeps.
    + split; [eauto|]. apply extends_app.
    + repeat econstructor.
    + cbn. lia.
  - refine (proj2 (proj2 (folds_refine_foldM (main_mem 0) stpcpy
              (fun acc m' => (exists k, acc = Vptr 10 k) /\
                             extends (main_mem 0) m')
              [Vptr 4 0; Vptr 5 0] (Vptr 10 0) buffer_mem
              _ _ _)) (Vptr 7 0) _).
    + intros acc m' [_ H]. exact H.
    + intros acc e m1 r m2. by apply stpcpy_keeps.
    + split; [eauto|]. apply extends_app.
    + exists (Vptr 6 0). split; [reflexivity|]. split; [reflexivity|].
      split; [reflexivity|].
      intros [|[|i]] x Hi; cbn in Hi; by simplify_eq.
Defined.

Lemma foldM_int (op : binop) :
  (forall acc e m r m', op acc e m = Done r m' -> as_int r = r) ->
  forall elems init m r m',
    as_int init = init ->
    foldM op elems init m = Done r m' -> as_int r = r.
Proof.
  intros Hop. induction elems as [|e elems IH]; intros init m r m' Hinit H.
  - by injection H as <- _.
  - cbn [foldM] in H. apply bind_inv_Done in H as (x & m1 & H1 & H2).
    apply Hop in H1. eauto.
Qed.

Lemma int_result_int (op : binop) :
  (forall acc e m r m', op acc e m = Done r m' -> as_int r = r) ->
  forall acc e m, int_result op acc e m = op acc e m.
Proof.
  intros Hop acc e m. unfold int_result, bind.
  destruct (op acc e m) as [r m'| |] eqn:H; [|done|done].
  cbn [ret]. by rewrite as_ptr_as_int, (Hop _ _ _ _ _ H).
Qed.

(** X18.  The folds on [int]s.  From an initial accumulator that is an
    [int], under a reducer whose results are [int]s (as
    [accumulate_length]'s are), the conversions change nothing: each of the
    five folds is the fold of the specification, the reducer applied to the
    accumulator and each element in turn from the left, for every reducer
    that keeps the blocks of the sequence as they are. *)
Theorem folds_refine_foldM_ints (h : heap) (op : binop)
    (Inv : val -> mem -> Prop) (elems : list val) (init : val) (m : mem) :
  (forall acc m', Inv acc m' -> extends h m') ->
  (forall acc e m1 r m2, Inv acc m1 -> op acc e m1 = Done r m2 -> Inv r m2) ->
  Inv init m ->
  as_int init = init ->
  (forall acc e m1 r m2, op acc e m1 = Done r m2 -> as_int r = r) ->
  (forall array,
     is_array h array elems ->
     fold_int_array array (Z.of_nat (length elems)) init op m
     = foldM op elems init m /\
     fold_array array (Z.of_nat (length elems)) init op m
     = foldM op elems init m) /\
  (forall list fuel,
     is_list h list elems -> (length elems < fuel)%nat ->
     fold_list fuel list init op m = foldM op elems init m /\
     fold_string_list fuel list init op m = foldM op elems init m) /\
  (forall array,
     is_counted_array h array elems ->
     fold_counted_array array init op m = foldM op elems init m).
Proof.
  intros Hext Hstep HI Hinit Hop.
  assert ((r <- foldM op elems init;; ret (as_int r)) m
          = foldM op elems init m) as Hconv.
  { unfold bind. destruct (foldM op elems init m) as [r m'| |] eqn:H;
      [|done|done].
    cbn [ret]. by rewrite (foldM_int op Hop _ _ _ _ _ Hinit H). }
  split; [|split].
  1: intros array Harr; split.
  3: intros list fuel Hlist Hfuel; split.
  5: intros array Harr.
  - by apply (fold_int_array_foldM h op Inv).
  - rewrite <- Hconv. by apply (fold_array_foldM h op Inv).
  - by apply (fold_list_foldM h op Inv).
  - rewrite fold_string_list_fold_list.
    rewrite (fold_list_ext _ _ (int_result_int op Hop)).
    by apply (fold_list_foldM h op Inv).
  - rewrite <- Hconv. by apply (fold_counted_array_foldM h op Inv).
Qed.

Lemma folds_refine_foldM_ints_witness :
  fold_string_list 3 (Vptr 3 0) (Vint 0) accumulate_length (main_mem 0)
  = foldM accumulate_length [Vptr 1 0; Vptr 0 0] (Vint 0) (main_mem 0) /\
  fold_counted_array (Vptr 7 0) (Vint 0) accumulate_length (main_mem 0)
  = foldM accumulate_length [Vptr 4 0; Vptr 5 0] (Vint 0) (main_mem 0).
Proof.
  split.
  - refine (proj2 (proj1 (proj2 (folds_refine_foldM_ints (main_mem 0)
              accumulate_length (fun _ m' => m' = main_mem 0)
              [Vptr 1 0; Vptr 0 0] (Vint 0) (main_mem 0) _ _ _ _ _))
              (Vptr 3 0) 3%nat _ _)).
    + intros _ m' ->. apply extends_refl.
    + intros acc e m1 r m2 -> H. by apply accumulate_length_mem in H.
    + reflexivity.
    + reflexivity.
    + apply accumulate_length_int.
    + repeat econstructor.
    + cbn. lia.
  - refine (proj2 (proj2 (folds_refine_foldM_ints (main_mem 0)
              accumulate_length (fun _ m' => m' = main_mem 0)
              [Vptr 4 0; Vptr 5 0] (Vint 0) (main_mem 0) _ _ _ _ _))
              (Vptr 7 0) _).
    + intros _ m' ->. apply extends_refl.
    + intros acc e m1 r m2 -> H. by apply accumulate_length_mem in H.
    + reflexivity.
    + reflexivity.
    + apply accumulate_length_int.
    + exists (Vptr 6 0). split; [reflexivity|]. split; [reflexivity|].
      split; [reflexivity|].
      intros [|[|i]] x Hi; cbn in Hi; by simplify_eq.
Defined.

(** X19.  The empty sequence.  On the [NULL] list, [fold_list] and
    [fold_string_list] return the initial accumulator as it is; so does
    [fold_int_array] on an array with no element to visit.  [fold_array]
    on such an array, and [fold_counted_array] on a counted array of length
    0, return the initial accumulator converted to [int]: an [int] comes
    back as it is.  None of them calls the reducer. *)
Theorem folds_on_empty (op : binop) (init : val) (m : mem) :
  (forall fuel, (0 < fuel)%nat ->
     fold_list fuel NULL init op m = Done init m /\
     fold_string_list fuel NULL init op m = Done init m) /\
  (forall array length, length <= 0 ->
     fold_int_array array length init op m = Done init m /\
     fold_array array length init op m = Done (as_int init) m) /\
  (forall array a,
     read m array = Some a -> read m (add array (Vint 1)) = Some (Vint 0) ->
     fold_counted_array array init op m = Done (as_int init) m) /\
  (forall n, - 2 ^ 31 <= n < 2 ^ 31 -> as_int (Vint n) = Vint n).
Proof.
  split; [|split; [|split]].
  1: intros fuel Hfuel; split.
  3: intros array length Hlength; split.
  5: intros array a.
  - destruct fuel; [lia | done].
  - destruct fuel; [lia | done].
  - unfold fold_int_array, for_upto. by rewrite Z2Nat.nonpos.
  - unfold fold_array, for_upto. by rewrite Z2Nat.nonpos.
  - intros Ha Hl. unfold fold_counted_array.
    rewrite (bind_Done _ _ m a m) by by apply load_read.
    rewrite (bind_Done _ _ m (Vint 0) m) by by apply load_read.
    rewrite (bind_Done _ _ m 0 m) by done.
    rewrite (bind_Done _ _ m (as_int init) m) by done.
    cbn [ret]. by rewrite as_ptr_as_int.
  - intros n Hn. cbn. by rewrite to_int_small.
Qed.

(** *** Counting the calls of the reducer *)

Lemma counting_Done c k g acc e (m : mem) :
  blocks m !! c = Some [Vint k] ->
  counting (Vptr c 0) g acc e m = Done (g acc e) (counted m c (to_int (k + 1))).
Proof.
  intros Hc. unfold counting.
  rewrite (bind_Done _ _ m (Vint k) m).
  2:{ apply load_read. exact (read_lookup m c 0 _ Hc). }
  unfold bind, store. by rewrite Hc.
Qed.

Lemma counted_counted m c k k' :
  counted (counted m c k) c k' = counted m c k'.
Proof. unfold counted. cbn. by rewrite list_insert_insert_eq. Qed.

Lemma counted_lookup m c k blk :
  blocks m !! c = Some blk -> blocks (counted m c k) !! c = Some [Vint k].
Proof.
  intros Hc. cbn. apply list_lookup_insert_eq. by eapply lookup_lt_Some.
Qed.

Lemma counted_id m c k : blocks m !! c = Some [Vint k] -> counted m c k = m.
Proof.
  intros Hc. unfold counted. rewrite (list_insert_id _ _ _ Hc). by destruct m.
Qed.

Lemma extends_counted (h : heap) m c k :
  h c = None -> extends h m -> extends h (counted m c k).
Proof. apply extends_insert_fresh. Qed.

Lemma foldM_counting c g elems :
  forall k init (m : mem),
    blocks m !! c = Some [Vint k] -> to_int k = k ->
    foldM (counting (Vptr c 0) g) elems init m
    = Done (fold_left g elems init)
        (counted m c (to_int (k + Z.of_nat (length elems)))).
Proof.
  induction elems as [|e elems IH]; intros k init m Hc Hk.
  - cbn. unfold ret. by rewrite Z.add_0_r, Hk, (counted_id _ _ _ Hc).
  - cbn [foldM fold_left length].
    rewrite (bind_Done _ _ _ _ _ (counting_Done c k g init e m Hc)).
    rewrite (IH (to_int (k + 1))).
    + rewrite counted_counted, to_int_add_l. do 3 f_equal. lia.
    + by eapply counted_lookup.
    + apply to_int_idem.
Qed.

Lemma foldM_ext (op1 op2 : binop) :
  (forall acc e m, op1 acc e m = op2 acc e m) ->
  forall elems init m, foldM op1 elems init m = foldM op2 elems init m.
Proof.
  intros Hop. induction elems as [|e elems IH]; intros init m; [done|].
  cbn [foldM]. unfold bind. rewrite Hop.
  destruct (op2 init e m); [apply IH | done | done].
Qed.

Lemma int_result_counting c g acc e m :
  int_result (counting c g) acc e m
  = counting c (fun acc e => as_int (g acc e)) acc e m.
Proof.
  unfold int_result, counting, bind.
  destruct (load c m) as [n m1| |]; [|done|done].
  destruct (store c (add n (Vint 1)) m1) as [[] m2| |]; [|done|done].
  cbn [ret]. by rewrite as_ptr_as_int.
Qed.

(** X20.  The reducer is called once for each element.  Folding a reducer
    that counts its own calls, over a sequence of [n] elements that lives
    in [h], with the counter in a block [c] outside of [h]: every one of
    the five folds leaves the counter [n] above where it started (as an
    [int]), whatever the shape of the sequence. *)
Theorem folds_call_reducer (h : heap) (elems : list val) (c : block) (k : Z)
    (g : val -> val -> val) (init : val) (m : mem) :
  extends h m -> h c = None ->
  blocks m !! c = Some [Vint k] -> to_int k = k ->
  (forall array,
     is_array h array elems ->
     fold_int_array array (Z.of_nat (length elems)) init
       (counting (Vptr c 0) g) m
     = Done (fold_left g elems init)
         (counted m c (to_int (k + Z.of_nat (length elems)))) /\
     fold_array array (Z.of_nat (length elems)) init (counting (Vptr c 0) g) m
     = Done (as_int (fold_left g elems init))
         (counted m c (to_int (k + Z.of_nat (length elems))))) /\
  (forall list fuel,
     is_list h list elems -> (length elems < fuel)%nat ->
     fold_list fuel list init (counting (Vptr c 0) g) m
     = Done (fold_left g elems init)
         (counted m c (to_int (k + Z.of_nat (length elems)))) /\
     fold_string_list fuel list init (counting (Vptr c 0) g) m
     = Done (fold_left (fun acc e => as_int (g acc e)) elems init)
         (counted m c (to_int (k + Z.of_nat (length elems))))) /\
  (forall array,
     is_counted_array h array elems ->
     fold_counted_array array init (counting (Vptr c 0) g) m
     = Done (as_int (fold_left g elems init))
         (counted m c (to_int (k + Z.of_nat (length elems))))).
Proof.
  intros Hext Hfresh Hc Hk.
  set (Inv := fun (_ : val) (m' : mem) =>
                extends h m' /\ exists k', blocks m' !! c = Some [Vint k']).
  assert (forall acc m', Inv acc m' -> extends h m') as Hinv1
    by (by intros acc m' [H _]).
  assert (forall g' acc e m1 r m2,
            Inv acc m1 -> counting (Vptr c 0) g' acc e m1 = Done r m2 ->
            Inv r m2) as Hinv2.
  { intros g' acc e m1 r m2 [Hext1 [k' Hc1]] Hop.
    rewrite (counting_Done _ _ _ _ _ _ Hc1) in Hop. injection Hop as _ <-.
    split; [by apply extends_counted|].
    eexists. by eapply counted_lookup. }
  assert (Inv init m) as HI by (split; eauto).
  split; [|split].
  1: intros array Harr; split.
  3: intros list fuel Hlist Hfuel; split.
  5: intros array Harr.
  - rewrite (fold_int_array_foldM h _ Inv Hinv1 (Hinv2 g) array elems)
      by done.
    by apply foldM_counting.
  - rewrite (fold_array_foldM h _ Inv Hinv1 (Hinv2 g) array elems) by done.
    by rewrite (bind_Done _ _ _ _ _ (foldM_counting c g elems k init m Hc Hk)).
  - rewrite (fold_list_foldM h _ Inv Hinv1 (Hinv2 g) list elems Hlist)
      by done.
    by apply foldM_counting.
  - rewrite fold_string_list_fold_list.
    rewrite (fold_list_ext _ _ (int_result_counting (Vptr c 0) g)).
    rewrite (fold_list_foldM h _ Inv Hinv1 (Hinv2 _) list elems Hlist)
      by done.
    by apply foldM_counting.
  - rewrite (fold_counted_array_foldM h _ Inv Hinv1 (Hinv2 g) array elems)
      by done.
    by rewrite (bind_Done _ _ _ _ _ (foldM_counting c g elems k init m Hc Hk)).
Qed.

Lemma folds_call_reducer_witness :
  fold_list 3 (Vptr 3 0) (Vint 0) (counting (Vptr 10 0) (fun acc _ => acc))
    (Mem (blocks (main_mem 0) ++ [[Vint 0]]) 0)
  = Done (Vint 0)
      (counted (Mem (blocks (main_mem 0) ++ [[Vint 0]]) 0) 10 2).
Proof.
  refine (proj1 (proj1 (proj2 (folds_call_reducer (main_mem 0)
            [Vptr 1 0; Vptr 0 0] 10 0 (fun acc _ => acc) (Vint 0)
            (Mem (blocks (main_mem 0) ++ [[Vint 0]]) 0) _ _ _ _))
            (Vptr 3 0) 3%nat _ _)).
  - apply extends_app.
  - reflexivity.
  - reflexivity.
  - reflexivity.
  - repeat econstructor.
  - cbn. lia.
Defined.

(** ** A total length that is a negative [int] *)

(** X21.  A total length from [2^31] on, over a counted array.  The [int]
    total has wrapped around to a negative number; [fold_counted_array]
    hands it on as a pointer, its sign extension, and the request [concat]
    makes of [malloc] is that plus one as a [size_t], a size near [2^64]:
    whatever room there is (below [2^63] cells), [malloc] returns [NULL],
    and [concat] faults in its copy pass, as on every allocation
    failure. *)
Theorem concat_negative_total (m : mem) (elems : list val)
    (strs : list (list Z)) (array : val) :
  is_counted_array m array elems ->
  strings_at m elems strs ->
  2 ^ 31 <= total_length strs ->
  total_length strs + 1 < 2 ^ 32 ->
  avail m < 2 ^ 63 ->
  request (total_length strs) = 2 ^ 64 - 2 ^ 32 + total_length strs + 1 /\
  concat fold_counted_array array m = Fault.
Proof.
  intros Harr Hstrs Hbig Hsmall Havail.
  pose proof (request_large _ Hbig Hsmall) as Hreq. split; [done|].
  destruct elems as [|e elems].
  { inversion Hstrs; subst. unfold total_length in Hbig. cbn in Hbig. lia. }
  rewrite (concat_foldM _ _ _ _ (fold_counted_array_folds _ _ _ Harr)).
  rewrite (bind_Done _ _ m (Vint (to_int (total_length strs))) m)
    by (by rewrite (foldM_accumulate_length _ _ _ Hstrs)).
  rewrite concat_size.
  rewrite (bind_Done _ _ m (request (total_length strs)) m) by done.
  erewrite bind_Done by (apply malloc_NULL; lia).
  cbn [foldM]. apply bind_Fault, bind_Fault, stpcpy_NULL.
Qed.

Lemma concat_negative_total_witness :
  concat fold_counted_array (Vptr 2 0)
    (repeated_mem (Z.to_nat 46341) (2 ^ 32)) = Fault.
Proof.
  refine (proj2 (concat_negative_total
            (repeated_mem (Z.to_nat 46341) (2 ^ 32))
            (replicate (Z.to_nat 46341) (Vptr 0 0))
            (replicate (Z.to_nat 46341) (replicate (Z.to_nat 46341) 97))
            (Vptr 2 0) _ _ _ _ _)).
  - apply repeated_mem_counted_array. lia.
  - apply repeated_mem_strings.
  - rewrite total_length_replicate, length_replicate. lia.
  - rewrite total_length_replicate, length_replicate. lia.
  - cbn. lia.
Defined.

(** ** [accumulate_length_helper] *)

